(** * FIT file converter: shallow embedding of [fitconverter/fit_converter.py]

    The byte buffer ([bytearray]) is a [list Z] whose entries are the byte
    values; positions are [nat].  The dictionary [local_definitions] is a
    [gmap Z msg_def].  Python exceptions are the left side of [res]. *)

From Stdlib Require Import ZArith Lia String.
From stdpp Require Import base list gmap.
Import ListNotations.
Open Scope Z_scope.

(* ------------------------------------------------------------------ *)
(** ** Exceptions and the error monad *)

Inductive exn :=
| FitConverterError (msg : string)
| IndexError          (* bytearray index out of range *)
| StructError.        (* struct.pack_into: argument out of range *)

Definition res (A : Type) : Type := (exn + A)%type.
Definition ok {A} (a : A) : res A := inr a.
Definition raise {A} (e : exn) : res A := inl e.
Definition bind {A B} (m : res A) (k : A -> res B) : res B :=
  match m with inl e => inl e | inr a => k a end.
Notation "'let?' x := m 'in' k" := (bind m (fun x => k))
  (at level 200, x name, m at level 100, right associativity).

(* ------------------------------------------------------------------ *)
(** ** Bytes *)

Abbreviation bytes := (list Z) (only parsing).

(** [data[i]] for an index the code has bounds-checked. *)
Definition byte_at (d : bytes) (i : nat) : Z := nth i d 0.

(** [struct.unpack('<H', data[i:i+2])] and [struct.unpack('<I', data[i:i+4])]. *)
Definition u16_le (d : bytes) (i : nat) : Z :=
  byte_at d i + 256 * byte_at d (i + 1).
Definition u32_le (d : bytes) (i : nat) : Z :=
  byte_at d i + 256 * byte_at d (i + 1) + 65536 * byte_at d (i + 2)
  + 16777216 * byte_at d (i + 3).

(** [struct.pack_into('<H', data, i, v)] at the call sites where the code
    guarantees [i + 2 <= len(data)] and [0 <= v < 2^16]. *)
Definition pack_u16 (d : bytes) (i : nat) (v : Z) : bytes :=
  <[(i + 1)%nat := (v / 256) mod 256]> (<[i := v mod 256]> d).

(** [struct.pack_into('<I', data, i, v)]: raises [struct.error] when [v]
    does not fit an unsigned 32-bit integer. *)
Definition pack_u32 (d : bytes) (i : nat) (v : Z) : res bytes :=
  if (0 <=? v) && (v <? 4294967296) then
    ok (<[(i + 3)%nat := (v / 16777216) mod 256]>
         (<[(i + 2)%nat := (v / 65536) mod 256]>
           (<[(i + 1)%nat := (v / 256) mod 256]> (<[i := v mod 256]> d))))
  else raise StructError.

(* ------------------------------------------------------------------ *)
(** ** [calculate_crc16] *)

Definition crc_table : list Z :=
  [0x0000; 0xCC01; 0xD801; 0x1400; 0xF001; 0x3C00; 0x2800; 0xE401;
   0xA001; 0x6C00; 0x7800; 0xB401; 0x5000; 0x9C01; 0x8801; 0x4400].

Definition crc_entry (i : Z) : Z := nth (Z.to_nat i) crc_table 0.

(** One nibble update: [tmp = crc_table[crc & 0xF];
    crc = (crc >> 4) & 0x0FFF; crc = crc ^ tmp ^ crc_table[nib & 0xF]]. *)
Definition crc_nibble (crc nib : Z) : Z :=
  let tmp := crc_entry (Z.land crc 15) in
  let crc := Z.land (Z.shiftr crc 4) 0x0FFF in
  Z.lxor (Z.lxor crc tmp) (crc_entry (Z.land nib 15)).

Definition crc_byte (crc b : Z) : Z :=
  crc_nibble (crc_nibble crc b) (Z.shiftr b 4).

Definition calculate_crc16 (data : bytes) : Z := fold_left crc_byte data 0.

(* ------------------------------------------------------------------ *)
(** ** Scan state *)

(** A field definition [(field_def_num, field_size, field_type)]. *)
Definition field := (Z * Z * Z)%type.
Definition fnum (f : field) : Z := f.1.1.
Definition fsize (f : field) : Z := f.1.2.

Record msg_def := MsgDef {
  global_msg_num : Z;
  fields : list field
}.

(** [sum(field[1] for field in definition['fields'])] *)
Definition msg_size (fs : list field) : nat :=
  fold_right (fun f acc => (Z.to_nat (fsize f) + acc)%nat) 0%nat fs.

Record scan_state := ScanState {
  data : bytes;
  pos : nat;
  local_definitions : gmap Z msg_def;
  manufacturer_changed : bool;
  file_creator_found : bool
}.

Definition set_data (st : scan_state) (d : bytes) : scan_state :=
  ScanState d (pos st) (local_definitions st) (manufacturer_changed st)
    (file_creator_found st).
Definition set_pos (st : scan_state) (p : nat) : scan_state :=
  ScanState (data st) p (local_definitions st) (manufacturer_changed st)
    (file_creator_found st).

(** Outcome of one iteration of the [while] loop: go on, or [break]. *)
Inductive step_out :=
| Continue (st : scan_state)
| Break (st : scan_state).

(* ------------------------------------------------------------------ *)
(** ** Definition records *)

(** [for i in range(num_fields): if pos + 3 > len(data): break; ...] *)
Fixpoint read_fields (d : bytes) (p : nat) (n : nat) : list field * nat :=
  match n with
  | O => ([], p)
  | S n' =>
      if (length d <? p + 3)%nat then ([], p)
      else
        let '(fs, p') := read_fields d (p + 3) n' in
        ((byte_at d p, byte_at d (p + 1), byte_at d (p + 2)) :: fs, p')
  end.

(** Definition-record branch; [p] is the position after the header byte. *)
Definition definition_step (st : scan_state) (header_byte : Z) (p : nat)
  : step_out :=
  let d := data st in
  let local_msg_type := Z.land header_byte 0x0F in
  if (length d <=? p + 4)%nat then Break (set_pos st p)
  else
    let global_msg_num := u16_le d (p + 2) in
    let p := (p + 4)%nat in
    (* [if pos >= len(data): break] *)
    if (length d <=? p)%nat then Break (set_pos st p)
    else
      let num_fields := byte_at d p in
      let p := S p in
      let '(fs, p) := read_fields d p (Z.to_nat num_fields) in
      Continue (ScanState d p
        (<[local_msg_type := MsgDef global_msg_num fs]> (local_definitions st))
        (manufacturer_changed st)
        (file_creator_found st || (global_msg_num =? 49))).

(* ------------------------------------------------------------------ *)
(** ** Data records: the field patchers *)

(** The field loop shared by the [file_id] and [device_info] branches:
    [for field_def_num, field_size, field_type in definition['fields']:
       if pos + field_offset + field_size > len(data): break
       ...
       field_offset += field_size]
    The body of the loop is [patch_field d (pos + field_offset) f mc]. *)
Fixpoint patch_loop (patch_field : bytes -> nat -> field -> bool -> bytes * bool)
  (d : bytes) (p fo : nat) (fs : list field) (mc : bool) : bytes * bool :=
  match fs with
  | [] => (d, mc)
  | f :: rest =>
      let sz := Z.to_nat (fsize f) in
      if (length d <? p + fo + sz)%nat then (d, mc)
      else
        let '(d', mc') := patch_field d (p + fo)%nat f mc in
        patch_loop patch_field d' p (fo + sz) rest mc'
  end.

(** Body of the [file_id] field loop (field 4, time_created, is only
    logged). *)
Definition file_id_field (d : bytes) (at_ : nat) (f : field) (mc : bool)
  : bytes * bool :=
  if (fnum f =? 0) && (fsize f =? 1) then (<[at_ := 4]> d, mc)
  else if (fnum f =? 1) && (fsize f =? 2) then (pack_u16 d at_ 1, true)
  else if (fnum f =? 2) && (fsize f =? 2) then (pack_u16 d at_ 3122, mc)
  else (d, mc).

(** Body of the [device_info] field loop. *)
Definition device_info_field (d : bytes) (at_ : nat) (f : field) (mc : bool)
  : bytes * bool :=
  if (fnum f =? 2) && (fsize f =? 2) then (pack_u16 d at_ 1, true)
  else if (fnum f =? 4) && (fsize f =? 2) then (pack_u16 d at_ 3122, mc)
  else (d, mc).

Definition patch_file_id := patch_loop file_id_field.
Definition patch_device_info := patch_loop device_info_field.

(** Data-record branch; [p] is the position after the header byte. *)
Definition data_step (st : scan_state) (header_byte : Z) (p : nat)
  : res step_out :=
  let d := data st in
  let local_msg_type := Z.land header_byte 0x0F in
  match local_definitions st !! local_msg_type with
  | None => ok (Break (set_pos st p))
  | Some def =>
      let size := msg_size (fields def) in
      if global_msg_num def =? 0 then
        (* the hex dump reads [data[pos+i]] for [i < min(message_size, 16)] *)
        if (length d <? p + Nat.min size 16)%nat then raise IndexError
        else
          let '(d', mc) := patch_file_id d p 0 (fields def)
                             (manufacturer_changed st) in
          ok (Continue (ScanState d' (p + size) (local_definitions st) mc
                          (file_creator_found st)))
      else if global_msg_num def =? 23 then
        let '(d', mc) := patch_device_info d p 0 (fields def)
                           (manufacturer_changed st) in
        ok (Continue (ScanState d' (p + size) (local_definitions st) mc
                        (file_creator_found st)))
      else ok (Continue (set_pos st (p + size)))
  end.

(** Classification of the record header byte. *)
Definition is_definition_header (header_byte : Z) : bool :=
  (Z.land header_byte 0x80 =? 0) && negb (Z.land header_byte 0x40 =? 0).

(** One iteration of the body of the [while] loop. *)
Definition step (st : scan_state) : res step_out :=
  let header_byte := byte_at (data st) (pos st) in
  let p := S (pos st) in
  if is_definition_header header_byte then ok (definition_step st header_byte p)
  else data_step st header_byte p.

(** [while pos < end_pos and pos < len(data)] *)
Definition loop_cond (end_pos : nat) (st : scan_state) : bool :=
  (pos st <? end_pos)%nat && (pos st <? length (data st))%nat.

(** The loop, with [fuel] bounding the iterations ([pos] grows by at least
    one per iteration, see [reach_fuel]). *)
Fixpoint scan_loop (fuel : nat) (end_pos : nat) (st : scan_state)
  : res scan_state :=
  match fuel with
  | O => ok st
  | S fuel' =>
      if loop_cond end_pos st then
        match step st with
        | inl e => inl e
        | inr (Continue st') => scan_loop fuel' end_pos st'
        | inr (Break st') => ok st'
        end
      else ok st
  end.

(* ------------------------------------------------------------------ *)
(** ** Header *)

Definition fit_signature : bytes := [46; 70; 73; 84]. (* b'.FIT' *)

Definition validate_header (d : bytes) : res unit :=
  if (length d <? 14)%nat then raise (FitConverterError "Invalid FIT file: too short")
  else if negb (bool_decide (take 4 (drop 8 d) = fit_signature)) then
    raise (FitConverterError "Invalid FIT file: missing .FIT signature")
  else if byte_at d 0 <? 12 then
    raise (FitConverterError "Invalid FIT file: header too short")
  else ok tt.

Definition header_size (d : bytes) : Z := byte_at d 0.
Definition data_size (d : bytes) : Z := u32_le d 4.

(** Protocol version forced to 16, profile version forced to 2134. *)
Definition normalize_header (d : bytes) : bytes :=
  let d := if byte_at d 1 =? 16 then d else <[1%nat := 16]> d in
  if u16_le d 2 =? 2134 then d else pack_u16 d 2 2134.

(** [end_pos = min(header_size + data_size, len(data) - 2)] *)
Definition scan_end (d : bytes) : nat :=
  Z.to_nat (Z.min (header_size d + data_size d) (Z.of_nat (length d - 2))).

Definition init_state (d : bytes) : scan_state :=
  ScanState d (Z.to_nat (header_size d)) ∅ false false.

(** Header validation, normalisation and the record scan. *)
Definition scan_fit (fit_data : bytes) : res scan_state :=
  let? _ := validate_header fit_data in
  let d := normalize_header fit_data in
  scan_loop (S (length d)) (scan_end d) (init_state d).

(* ------------------------------------------------------------------ *)
(** ** [_create_file_creator_message] *)

Definition file_creator_message : bytes :=
  [0x47; 0x00; 0x00; 0x31; 0x00; 0x02;
   0x00; 0x02; 0x84;
   0x01; 0x01; 0x02;
   0x07; 975 mod 256; 975 / 256; 255].

(** [insert_pos = len(data) - 2; data[insert_pos:insert_pos] = block] *)
Definition splice_before_crc (d blk : bytes) : bytes :=
  let insert_pos := (length d - 2)%nat in
  take insert_pos d ++ blk ++ drop insert_pos d.

(** [if len(data) >= 16: crc_data = data[:-2];
     struct.pack_into('<H', data, len(data) - 2, calculate_crc16(crc_data))] *)
Definition write_crc (d : bytes) : bytes :=
  if (16 <=? length d)%nat then
    pack_u16 d (length d - 2) (calculate_crc16 (take (length d - 2) d))
  else d.

(** After the scan: splice the file_creator block, fix payload_size,
    recompute the CRC. [ds] is [data_size] as read from the input. *)
Definition finish (ds : Z) (st : scan_state) : res bytes :=
  let d := data st in
  if manufacturer_changed st then
    let? d := (if negb (file_creator_found st) then
                 let d := splice_before_crc d file_creator_message in
                 pack_u32 d 4 (ds + Z.of_nat (length file_creator_message))
               else ok d) in
    ok (write_crc d)
  else ok d.

Definition modify_manufacturer_binary (fit_data : bytes) (new_manufacturer : Z)
  : res bytes :=
  let? st := scan_fit fit_data in
  finish (data_size fit_data) st.

(** [FitConverter.convert_fit]: every exception becomes a FitConverterError. *)
Definition exn_message (e : exn) : string :=
  match e with
  | FitConverterError m => m
  | IndexError => "bytearray index out of range"
  (* [lp_uint] in CPython's _struct.c on a 64-bit [long] *)
  | StructError => "'I' format requires 0 <= number <= 4294967295"
  end.

Definition convert_fit (fit_data : bytes) : res bytes :=
  match fit_data with
  | [] => raise (FitConverterError "fit_data cannot be empty")
  | _ =>
      match modify_manufacturer_binary fit_data 260 with
      | inl e => raise (FitConverterError ("Failed to convert FIT file: " ++ exn_message e))
      | inr d => ok d
      end
  end.

(* ------------------------------------------------------------------ *)
(** ** Sample input *)

(** Header of 12 bytes, a file_id definition (type, manufacturer, product),
    one file_id data record (type 0, manufacturer 32, product 0), CRC. *)
Definition sample_fit : bytes :=
  [12; 16; 0x56; 0x08; 21; 0; 0; 0; 46; 70; 73; 84;
   0x40; 0; 0; 0; 0; 3; 0; 1; 0; 1; 2; 0x84; 2; 2; 0x84;
   0x00; 0; 32; 0; 0; 0;
   0; 0].


(** Fields the patchers rewrite, per global message number (spec 4.3). *)
Definition identity_field (g : Z) (f : field) : bool :=
  if g =? 0 then
    ((fnum f =? 0) && (fsize f =? 1)) || ((fnum f =? 1) && (fsize f =? 2))
    || ((fnum f =? 2) && (fsize f =? 2))
  else if g =? 23 then
    ((fnum f =? 2) && (fsize f =? 2)) || ((fnum f =? 4) && (fsize f =? 2))
  else false.

Definition out_state (o : step_out) : scan_state :=
  match o with Continue st => st | Break st => st end.

(** The state at the top of the next iteration, when the body does not
    leave the loop. *)
Definition state_after (st : scan_state) : scan_state :=
  match step st with inr (Continue st') => st' | _ => st end.

(** The converted sample, and the loop state at the top of the third
    iteration when the converted sample is scanned again. *)
Definition sample_out : bytes :=
  match convert_fit sample_fit with inr y => y | inl _ => [] end.

Definition sample_rescan_state : scan_state :=
  state_after (state_after (init_state (normalize_header sample_out))).

(** Byte [i] lies in a field that the data record at [pos st] patches. *)
Definition patched_at (st : scan_state) (i : nat) : Prop :=
  is_definition_header (byte_at (data st) (pos st)) = false /\
  exists def, local_definitions st !!
                Z.land (byte_at (data st) (pos st)) 0x0F = Some def /\
  exists pre f post, fields def = pre ++ f :: post /\
    identity_field (global_msg_num def) f = true /\
    (S (pos st) + msg_size pre <= i < S (pos st) + msg_size pre + Z.to_nat (fsize f))%nat.

(** The field whose patch sets [manufacturer_changed]: field 1 of
    [file_id], field 2 of [device_info], both of size 2. *)
Definition manufacturer_field (g : Z) (f : field) : bool :=
  if g =? 0 then (fnum f =? 1) && (fsize f =? 2)
  else if g =? 23 then (fnum f =? 2) && (fsize f =? 2)
  else false.

(** The data record at [pos st] has a manufacturer field that lies wholly
    inside the buffer. *)
Definition writes_manufacturer (st : scan_state) : Prop :=
  is_definition_header (byte_at (data st) (pos st)) = false /\
  exists def, local_definitions st !!
                Z.land (byte_at (data st) (pos st)) 0x0F = Some def /\
  exists pre f post, fields def = pre ++ f :: post /\
    manufacturer_field (global_msg_num def) f = true /\
    (S (pos st) + msg_size pre + Z.to_nat (fsize f) <= length (data st))%nat.

(** Reachability along the loop: [st'] is the state at the top of some
    later iteration of the [while] loop started in [st]. *)
Inductive reach (end_pos : nat) : scan_state -> scan_state -> Prop :=
| reach_refl st : reach end_pos st st
| reach_step st st' st'' :
    loop_cond end_pos st = true -> step st = inr (Continue st') ->
    reach end_pos st' st'' -> reach end_pos st st''.

(** The patch applied by a data record bound to global message [g]. *)
Definition patch_record (g : Z) (d : bytes) (p : nat) (fs : list field) (mc : bool)
  : bytes * bool :=
  if g =? 0 then patch_file_id d p 0 fs mc
  else if g =? 23 then patch_device_info d p 0 fs mc
  else (d, mc).

(** Iterations left at most: [len(data) - pos]. *)
Definition measure (st : scan_state) : nat := (length (data st) - pos st)%nat.

(** A 14-byte file that is only a header: protocol 16, profile 2134,
    payload_size 0, CRC bytes 0. *)
Definition header_only_fit : bytes :=
  [12; 16; 0x56; 0x08; 0; 0; 0; 0; 46; 70; 73; 84; 0; 0].

(** A header, then a definition record announcing five fields of which
    only one is present, then the CRC bytes. *)
Definition truncated_def_fit : bytes :=
  [12; 16; 0x56; 0x08; 11; 0; 0; 0; 46; 70; 73; 84;
   0x40; 0; 0; 0; 0; 5; 1; 2; 3;
   0; 0].

(** A header, a file_id definition with the manufacturer field only, one
    file_id data record (manufacturer 32), then a data record header for
    local message type 5, which no definition binds, then the CRC bytes. *)
Definition unbound_type_fit : bytes :=
  [12; 16; 0x56; 0x08; 13; 0; 0; 0; 46; 70; 73; 84;
   0x40; 0; 0; 0; 0; 1; 1; 2; 0x84;
   0x00; 0x20; 0x00;
   0x05;
   0; 0].

(** The same records with payload_size [0xFFFFFFFF]. *)
Definition payload_overflow_fit : bytes :=
  [12; 16; 0x56; 0x08; 255; 255; 255; 255; 46; 70; 73; 84;
   0x40; 0; 0; 0; 0; 1; 1; 2; 0x84;
   0x00; 0x20; 0x00;
   0x05;
   0; 0].

Example sample_fit_converted :
  convert_fit sample_fit = inr
    [12; 16; 86; 8; 37; 0; 0; 0; 46; 70; 73; 84; 64; 0; 0; 0; 0; 3; 0;
     1; 0; 1; 2; 132; 2; 2; 132; 0; 4; 1; 0; 50; 12; 71; 0; 0; 49; 0; 2;
     0; 2; 132; 1; 1; 2; 7; 207; 3; 255; 36; 175].
Proof. vm_compute. reflexivity. Qed.

(* ================================================================== *)
(** * Byte-level lemmas *)

Ltac zcases :=
  repeat match goal with
  | |- context [?a =? ?b] =>
      let E := fresh "E" in destruct (Z.eqb_spec a b) as [E|E]; simpl in *
  end.

Lemma byte_at_insert_ne d i j v :
  i <> j -> byte_at (<[j := v]> d) i = byte_at d i.
Proof. intros H. unfold byte_at. rewrite !nth_lookup, list_lookup_insert_ne; auto. Qed.

Lemma byte_at_insert_eq d i v :
  (i < length d)%nat -> byte_at (<[i := v]> d) i = v.
Proof. intros H. unfold byte_at. rewrite nth_lookup, list_lookup_insert_eq; auto. Qed.

Lemma length_pack_u16 d a v : length (pack_u16 d a v) = length d.
Proof. unfold pack_u16. by rewrite !length_insert. Qed.

Lemma byte_at_pack_u16_out d a v i :
  (i < a \/ a + 2 <= i)%nat -> byte_at (pack_u16 d a v) i = byte_at d i.
Proof. intros H. unfold pack_u16. rewrite !byte_at_insert_ne by lia. done. Qed.

Lemma byte_at_pack_u16_lo d a v :
  (a + 2 <= length d)%nat -> byte_at (pack_u16 d a v) a = v mod 256.
Proof.
  intros H. unfold pack_u16. rewrite byte_at_insert_ne by lia.
  apply byte_at_insert_eq. lia.
Qed.

Lemma byte_at_pack_u16_hi d a v :
  (a + 2 <= length d)%nat -> byte_at (pack_u16 d a v) (a + 1) = (v / 256) mod 256.
Proof.
  intros H. unfold pack_u16. apply byte_at_insert_eq. rewrite length_insert. lia.
Qed.

Lemma u16_le_pack_u16 d a v :
  (a + 2 <= length d)%nat -> 0 <= v < 65536 -> u16_le (pack_u16 d a v) a = v.
Proof.
  intros H Hv. unfold u16_le.
  rewrite byte_at_pack_u16_lo, byte_at_pack_u16_hi by lia.
  rewrite (Z.mod_small (v / 256) 256)
    by (split; [apply Z.div_pos | apply Z.div_lt_upper_bound]; lia).
  pose proof (Z.div_mod v 256). lia.
Qed.

Lemma take_pack_u16 d a v n : (n <= a)%nat -> take n (pack_u16 d a v) = take n d.
Proof. intros H. unfold pack_u16. rewrite !take_insert_ge by lia. done. Qed.

(* ================================================================== *)
(** * CRC range *)

Lemma crc_entry_range i : 0 <= crc_entry i < 65536.
Proof.
  unfold crc_entry. generalize (Z.to_nat i) as n. intros n.
  do 16 (destruct n as [|n]; [simpl; lia|]). destruct n; simpl; lia.
Qed.

Lemma lxor_range16 a b :
  0 <= a < 65536 -> 0 <= b < 65536 -> 0 <= Z.lxor a b < 65536.
Proof.
  intros Ha Hb.
  assert (Hn : 0 <= Z.lxor a b) by (apply Z.lxor_nonneg; lia).
  assert (Hs : Z.shiftr (Z.lxor a b) 16 = 0).
  { rewrite Z.shiftr_lxor, !Z.shiftr_div_pow2 by lia.
    rewrite !Z.div_small by (simpl; lia). reflexivity. }
  rewrite Z.shiftr_div_pow2 in Hs by lia. change (2 ^ 16) with 65536 in Hs.
  split; [lia|]. pose proof (Z.div_mod (Z.lxor a b) 65536 ltac:(lia)).
  pose proof (Z.mod_pos_bound (Z.lxor a b) 65536 ltac:(lia)). lia.
Qed.

Lemma crc_nibble_range crc nib : 0 <= crc_nibble crc nib < 65536.
Proof.
  unfold crc_nibble.
  assert (H : 0 <= Z.land (Z.shiftr crc 4) 0x0FFF < 65536).
  { change 0x0FFF with (Z.ones 12). rewrite Z.land_ones by lia.
    pose proof (Z.mod_pos_bound (Z.shiftr crc 4) (2 ^ 12) ltac:(lia)).
    simpl in *. lia. }
  apply lxor_range16; [apply lxor_range16|]; auto using crc_entry_range.
Qed.

Lemma calculate_crc16_range d : 0 <= calculate_crc16 d < 65536.
Proof.
  unfold calculate_crc16.
  assert (H : forall l c, 0 <= c < 65536 -> 0 <= fold_left crc_byte l c < 65536).
  { induction l as [|b l IH]; intros c Hc; simpl; [done|].
    apply IH. unfold crc_byte. apply crc_nibble_range. }
  apply H. lia.
Qed.

(* ================================================================== *)
(** * The field loop *)

Ltac nat_guard H :=
  match goal with
  | |- context [(?a <? ?b)%nat] => destruct (Nat.ltb_spec a b) as [H|H]
  | _ : context [(?a <? ?b)%nat] |- _ => destruct (Nat.ltb_spec a b) as [H|H]
  end.

Lemma msg_size_app pre post :
  msg_size (pre ++ post) = (msg_size pre + msg_size post)%nat.
Proof. induction pre as [|f pre IH]; simpl; lia. Qed.

Lemma msg_size_cons f fs :
  msg_size (f :: fs) = (Z.to_nat (fsize f) + msg_size fs)%nat.
Proof. reflexivity. Qed.

Section PatchLoop.
Variable pf : bytes -> nat -> field -> bool -> bytes * bool.
Variable g : Z.
Hypothesis pf_length : forall d a f mc,
  length (pf d a f mc).1 = length d.
Hypothesis pf_frame : forall d a f mc i,
  (a + Z.to_nat (fsize f) <= length d)%nat ->
  (i < a \/ a + Z.to_nat (fsize f) <= i)%nat ->
  byte_at (pf d a f mc).1 i = byte_at d i.
Hypothesis pf_inert : forall d a f mc,
  identity_field g f = false -> (pf d a f mc).1 = d.

Lemma patch_loop_length d p fo fs mc :
  length (patch_loop pf d p fo fs mc).1 = length d.
Proof.
  revert d fo mc. induction fs as [|f fs IH]; intros d fo mc; simpl; [done|].
  nat_guard Hg; [done|].
  destruct (pf d (p + fo) f mc) as [d' mc'] eqn:E.
  rewrite IH. change d' with (d', mc').1. rewrite <- E. apply pf_length.
Qed.

(** The loop writes only inside the record, [[p + fo, p + fo + size)). *)
Lemma patch_loop_frame d p fo fs mc i :
  (i < p + fo \/ p + fo + msg_size fs <= i)%nat ->
  byte_at (patch_loop pf d p fo fs mc).1 i = byte_at d i.
Proof.
  revert d fo mc. induction fs as [|f fs IH]; intros d fo mc Hi; simpl; [done|].
  nat_guard Hg; [done|]. rewrite msg_size_cons in Hi.
  destruct (pf d (p + fo) f mc) as [d' mc'] eqn:E.
  rewrite IH by lia.
  change d' with (d', mc').1. rewrite <- E. apply pf_frame; lia.
Qed.

(** A byte the loop changes lies in a patched field. *)
Lemma patch_loop_cover d p fo fs mc i :
  byte_at (patch_loop pf d p fo fs mc).1 i <> byte_at d i ->
  exists pre f post, fs = pre ++ f :: post /\ identity_field g f = true /\
    (p + fo + msg_size pre <= i < p + fo + msg_size pre + Z.to_nat (fsize f))%nat.
Proof.
  revert d fo mc. induction fs as [|f fs IH]; intros d fo mc Hne; simpl in Hne;
    [done|].
  nat_guard Hg; [done|].
  destruct (pf d (p + fo) f mc) as [d' mc'] eqn:E.
  destruct (decide (byte_at (patch_loop pf d' p (fo + Z.to_nat (fsize f)) fs mc').1 i
                    = byte_at d' i)) as [Heq|Hne'].
  - rewrite Heq in Hne.
    assert (Hd' : d' = (pf d (p + fo) f mc).1) by (rewrite E; done).
    destruct (identity_field g f) eqn:Hid.
    + exists [], f, fs. split; [done|]. split; [done|]. simpl.
      destruct (decide (i < p + fo \/ p + fo + Z.to_nat (fsize f) <= i)%nat)
        as [Hout|Hin]; [|lia].
      exfalso. apply Hne. rewrite Hd'. apply pf_frame; lia.
    + exfalso. apply Hne. rewrite Hd', pf_inert; done.
  - destruct (IH _ _ _ Hne') as (pre & f' & post & -> & Hid & Hr).
    exists (f :: pre), f', post. split; [done|]. split; [done|].
    rewrite msg_size_cons. lia.
Qed.

(** The bytes of a field the loop does not patch are untouched. *)
Lemma patch_loop_unmatched d p fo pre f post mc i :
  identity_field g f = false ->
  (p + fo + msg_size pre <= i < p + fo + msg_size pre + Z.to_nat (fsize f))%nat ->
  byte_at (patch_loop pf d p fo (pre ++ f :: post) mc).1 i = byte_at d i.
Proof.
  intros Hid. revert d fo mc.
  induction pre as [|f0 pre IH]; intros d fo mc Hi; simpl.
  - nat_guard Hg; [done|].
    destruct (pf d (p + fo) f mc) as [d' mc'] eqn:E.
    assert (Hd' : d' = d) by (change d' with (d', mc').1; rewrite <- E; auto).
    subst d'. apply patch_loop_frame. simpl in Hi. lia.
  - nat_guard Hg; [done|].
    destruct (pf d (p + fo) f0 mc) as [d' mc'] eqn:E.
    rewrite IH by (rewrite msg_size_cons in Hi; lia).
    change d' with (d', mc').1. rewrite <- E. apply pf_frame; [lia|].
    rewrite msg_size_cons in Hi. lia.
Qed.

(** When the whole field fits in the buffer, its bytes in the result are
    those written by the loop body for it. *)
Lemma patch_loop_field d p fo pre f post mc :
  (p + fo + msg_size pre + Z.to_nat (fsize f) <= length d)%nat ->
  exists dk mck, length dk = length d /\
    forall i, (p + fo + msg_size pre <= i < p + fo + msg_size pre + Z.to_nat (fsize f))%nat ->
      byte_at (patch_loop pf d p fo (pre ++ f :: post) mc).1 i
      = byte_at (pf dk (p + fo + msg_size pre)%nat f mck).1 i.
Proof.
  revert d fo mc.
  induction pre as [|f0 pre IH]; intros d fo mc Hfit; cbn [app patch_loop].
  - nat_guard Hg; [simpl in Hfit; lia|].
    exists d, mc. split; [done|]. intros i Hi.
    destruct (pf d (p + fo) f mc) as [d' mc'] eqn:E.
    rewrite patch_loop_frame by (simpl in Hi; lia).
    rewrite Nat.add_0_r, E. done.
  - rewrite msg_size_cons in Hfit.
    nat_guard Hg; [lia|].
    destruct (pf d (p + fo) f0 mc) as [d' mc'] eqn:E.
    assert (Hl : length d' = length d)
      by (change d' with (d', mc').1; rewrite <- E; auto).
    destruct (IH d' (fo + Z.to_nat (fsize f0))%nat mc') as (dk & mck & Hlk & Hk);
      [lia|].
    exists dk, mck. split; [lia|]. intros i Hi.
    rewrite msg_size_cons in Hi |- *.
    replace (p + fo + (Z.to_nat (fsize f0) + msg_size pre))%nat
      with (p + (fo + Z.to_nat (fsize f0)) + msg_size pre)%nat by lia.
    apply Hk. lia.
Qed.
End PatchLoop.

Lemma file_id_field_length d a f mc : length (file_id_field d a f mc).1 = length d.
Proof.
  unfold file_id_field. repeat case_match; simpl;
    rewrite ?length_insert, ?length_pack_u16; done.
Qed.

Lemma device_info_field_length d a f mc :
  length (device_info_field d a f mc).1 = length d.
Proof.
  unfold device_info_field. repeat case_match; simpl; rewrite ?length_pack_u16; done.
Qed.

Lemma file_id_field_frame d a f mc i :
  (a + Z.to_nat (fsize f) <= length d)%nat ->
  (i < a \/ a + Z.to_nat (fsize f) <= i)%nat ->
  byte_at (file_id_field d a f mc).1 i = byte_at d i.
Proof.
  unfold file_id_field. intros Hfit Hi. zcases; try done;
    rewrite ?E0, ?E2, ?E4 in Hi; simpl in Hi;
    first [apply byte_at_insert_ne | apply byte_at_pack_u16_out]; lia.
Qed.

Lemma device_info_field_frame d a f mc i :
  (a + Z.to_nat (fsize f) <= length d)%nat ->
  (i < a \/ a + Z.to_nat (fsize f) <= i)%nat ->
  byte_at (device_info_field d a f mc).1 i = byte_at d i.
Proof.
  unfold device_info_field. intros Hfit Hi. zcases; try done;
    rewrite ?E0, ?E2 in Hi; simpl in Hi; apply byte_at_pack_u16_out; lia.
Qed.

Lemma file_id_field_inert d a f mc :
  identity_field 0 f = false -> (file_id_field d a f mc).1 = d.
Proof. unfold identity_field, file_id_field. simpl. zcases; done. Qed.

Lemma device_info_field_inert d a f mc :
  identity_field 23 f = false -> (device_info_field d a f mc).1 = d.
Proof. unfold identity_field, device_info_field. simpl. zcases; done. Qed.


Lemma patch_record_length g d p fs mc :
  length (patch_record g d p fs mc).1 = length d.
Proof.
  unfold patch_record, patch_file_id, patch_device_info. zcases; try done.
  - apply patch_loop_length, file_id_field_length.
  - apply patch_loop_length, device_info_field_length.
Qed.

Lemma patch_record_frame g d p fs mc i :
  (i < p \/ p + msg_size fs <= i)%nat ->
  byte_at (patch_record g d p fs mc).1 i = byte_at d i.
Proof.
  intros Hi. unfold patch_record, patch_file_id, patch_device_info.
  zcases; try done.
  - apply patch_loop_frame; [apply file_id_field_frame | lia].
  - apply patch_loop_frame; [apply device_info_field_frame | lia].
Qed.

Lemma patch_record_cover g d p fs mc i :
  byte_at (patch_record g d p fs mc).1 i <> byte_at d i ->
  exists pre f post, fs = pre ++ f :: post /\ identity_field g f = true /\
    (p + msg_size pre <= i < p + msg_size pre + Z.to_nat (fsize f))%nat.
Proof.
  unfold patch_record, patch_file_id, patch_device_info. intros Hne.
  destruct (Z.eqb_spec g 0) as [->|H0]; [|destruct (Z.eqb_spec g 23) as [->|H23]].
  - destruct (patch_loop_cover file_id_field 0 file_id_field_frame
                file_id_field_inert d p 0 fs mc i Hne) as (pre & f & post & ? & ? & ?).
    exists pre, f, post. rewrite Nat.add_0_r in *. done.
  - destruct (patch_loop_cover device_info_field 23 device_info_field_frame
                device_info_field_inert d p 0 fs mc i Hne) as (pre & f & post & ? & ? & ?).
    exists pre, f, post. rewrite Nat.add_0_r in *. done.
  - done.
Qed.

Lemma patch_record_unmatched g d p pre f post mc i :
  identity_field g f = false ->
  (p + msg_size pre <= i < p + msg_size pre + Z.to_nat (fsize f))%nat ->
  byte_at (patch_record g d p (pre ++ f :: post) mc).1 i = byte_at d i.
Proof.
  intros Hid Hi. unfold patch_record, patch_file_id, patch_device_info.
  zcases; subst; try done.
  - apply (patch_loop_unmatched _ 0 file_id_field_frame file_id_field_inert);
      [done | lia].
  - apply (patch_loop_unmatched _ 23 device_info_field_frame device_info_field_inert);
      [done | lia].
Qed.

(* ================================================================== *)
(** * One iteration of the loop *)

Lemma read_fields_pos d p n : (p <= (read_fields d p n).2)%nat.
Proof.
  revert p. induction n as [|n IH]; intros p; simpl; [lia|].
  nat_guard Hg; simpl; [lia|].
  destruct (read_fields d (p + 3) n) as [fs p'] eqn:E. simpl.
  specialize (IH (p + 3)%nat). rewrite E in IH. simpl in IH. lia.
Qed.

(** A definition whose fields do not fit stops reading with fewer than
    three bytes left. *)
Lemma read_fields_trunc d p n :
  (length d < p + 3 * n)%nat -> (length d < (read_fields d p n).2 + 3)%nat.
Proof.
  revert p. induction n as [|n IH]; intros p H; simpl; [lia|].
  nat_guard Hg; simpl; [lia|].
  destruct (read_fields d (p + 3) n) as [fs p'] eqn:E. simpl.
  specialize (IH (p + 3)%nat). rewrite E in IH. simpl in IH. apply IH. lia.
Qed.

Lemma definition_step_inv st hb p :
  let o := definition_step st hb p in
  data (out_state o) = data st /\ (p <= pos (out_state o))%nat /\
  manufacturer_changed (out_state o) = manufacturer_changed st /\
  (file_creator_found (out_state o) = true ->
   file_creator_found st = true \/ (p + 4 < length (data st))%nat) /\
  (forall st', o = Break st' -> st' = set_pos st (pos st')).
Proof.
  unfold definition_step. simpl.
  destruct (Nat.leb_spec (length (data st)) (p + 4)) as [H1|H1].
  { simpl. split_and!; [done | lia | done | by left |].
    intros st' [= <-]. done. }
  destruct (Nat.leb_spec (length (data st)) (p + 4)) as [H2|H2]; [lia|].
  pose proof (read_fields_pos (data st) (S (p + 4))
                (Z.to_nat (byte_at (data st) (p + 4)))) as Hp.
  destruct (read_fields _ _ _) as [fs p'] eqn:E. simpl in *.
  split_and!; [done | lia | done | | by intros ? [=]].
  intros Hf. apply orb_true_iff in Hf as [Hf|Hf]; [by left | right; lia].
Qed.

Lemma data_step_inv st hb o :
  data_step st hb (S (pos st)) = inr o ->
  (local_definitions st !! Z.land hb 0x0F = None /\ o = Break (set_pos st (S (pos st))))
  \/ (exists def, local_definitions st !! Z.land hb 0x0F = Some def /\
      o = Continue (ScanState
            (patch_record (global_msg_num def) (data st) (S (pos st)) (fields def)
               (manufacturer_changed st)).1
            (S (pos st) + msg_size (fields def))
            (local_definitions st)
            (patch_record (global_msg_num def) (data st) (S (pos st)) (fields def)
               (manufacturer_changed st)).2
            (file_creator_found st))).
Proof.
  unfold data_step. intros H.
  destruct (local_definitions st !! Z.land hb 0x0F) as [def|] eqn:Hl.
  - right. exists def. split; [done|]. unfold patch_record.
    destruct (Z.eqb_spec (global_msg_num def) 0) as [E0|E0].
    + nat_guard Hg; [done|].
      destruct (patch_file_id _ _ _ _ _) as [d' mc]. by inversion H.
    + destruct (Z.eqb_spec (global_msg_num def) 23) as [E1|E1].
      * destruct (patch_device_info _ _ _ _ _) as [d' mc]. by inversion H.
      * inversion H. done.
  - left. split; [done|]. by inversion H.
Qed.

Ltac step_destruct H :=
  unfold step in H;
  let Hdef := fresh "Hdef" in
  destruct (is_definition_header (byte_at (data _) (pos _))) eqn:Hdef;
  [ injection H as <-
  | let Hd := fresh "Hd" in
    destruct (data_step_inv _ _ _ H) as [[? ->] | (? & ? & ->)] ].

Lemma step_length st o :
  step st = inr o -> length (data (out_state o)) = length (data st).
Proof.
  intros H. step_destruct H; simpl; [|done|apply patch_record_length].
  by destruct (definition_step_inv st (byte_at (data st) (pos st)) (S (pos st)))
    as [-> _].
Qed.

Lemma step_pos st o : step st = inr o -> (pos st < pos (out_state o))%nat.
Proof.
  intros H. step_destruct H; simpl; [|lia|lia].
  destruct (definition_step_inv st (byte_at (data st) (pos st)) (S (pos st)))
    as (_ & ? & _). lia.
Qed.

Lemma step_frame st o i :
  step st = inr o -> (i <= pos st \/ pos (out_state o) <= i)%nat ->
  byte_at (data (out_state o)) i = byte_at (data st) i.
Proof.
  intros H Hi. step_destruct H; simpl in *; [|done|].
  - by destruct (definition_step_inv st (byte_at (data st) (pos st)) (S (pos st)))
      as [-> _].
  - apply patch_record_frame. lia.
Qed.

Lemma step_cover st o i :
  step st = inr o -> byte_at (data (out_state o)) i <> byte_at (data st) i ->
  is_definition_header (byte_at (data st) (pos st)) = false /\
  exists def, local_definitions st !!
                Z.land (byte_at (data st) (pos st)) 0x0F = Some def /\
  exists pre f post, fields def = pre ++ f :: post /\
    identity_field (global_msg_num def) f = true /\
    (S (pos st) + msg_size pre <= i < S (pos st) + msg_size pre + Z.to_nat (fsize f))%nat.
Proof.
  intros H Hne. step_destruct H; simpl in *.
  - exfalso. apply Hne.
    by destruct (definition_step_inv st (byte_at (data st) (pos st)) (S (pos st)))
      as [-> _].
  - done.
  - split; [done|]. eexists. split; [eassumption|].
    by apply patch_record_cover in Hne.
Qed.

Lemma step_found st o :
  step st = inr o -> file_creator_found (out_state o) = true ->
  file_creator_found st = true \/ (pos st + 5 < length (data st))%nat.
Proof.
  intros H Hf. step_destruct H; simpl in *; [|by left|by left].
  destruct (definition_step_inv st (byte_at (data st) (pos st)) (S (pos st)))
    as (_ & _ & _ & Hi & _).
  destruct (Hi Hf); [by left | right; lia].
Qed.

(* ================================================================== *)
(** * The loop *)


Lemma loop_cond_true e st :
  loop_cond e st = true -> (pos st < e /\ pos st < length (data st))%nat.
Proof.
  unfold loop_cond. intros H. apply andb_true_iff in H as [H1 H2].
  apply Nat.ltb_lt in H1, H2. done.
Qed.

Lemma loop_cond_false e st :
  (e <= pos st)%nat -> loop_cond e st = false.
Proof.
  intros H. unfold loop_cond. destruct (Nat.ltb_spec (pos st) e); [lia|done].
Qed.

(** Bytes at or before the current position are final. *)
Lemma scan_loop_frame fuel e st fin :
  scan_loop fuel e st = inr fin ->
  length (data fin) = length (data st) /\ (pos st <= pos fin)%nat /\
  forall i, (i <= pos st)%nat -> byte_at (data fin) i = byte_at (data st) i.
Proof.
  revert st. induction fuel as [|fuel IH]; intros st H; cbn [scan_loop] in H.
  - injection H as <-. done.
  - destruct (loop_cond e st); [|injection H as <-; done].
    destruct (step st) as [err|[st'|st']] eqn:Hs; [done| |].
    + destruct (IH _ H) as (Hl & Hp & Hf).
      pose proof (step_length _ _ Hs) as Hl'. pose proof (step_pos _ _ Hs) as Hp'.
      simpl in *. split_and!; [lia|lia|].
      intros i Hi. rewrite Hf by lia. apply (step_frame _ _ _ Hs). lia.
    + injection H as <-.
      pose proof (step_length _ _ Hs). pose proof (step_pos _ _ Hs).
      simpl in *. split_and!; [done|lia|].
      intros i Hi. apply (step_frame _ _ _ Hs). lia.
Qed.

(** Bytes at or after a reached position still hold their initial value. *)
Lemma reach_frame e st st' :
  reach e st st' ->
  length (data st') = length (data st) /\ (pos st <= pos st')%nat /\
  forall i, (pos st' <= i)%nat -> byte_at (data st') i = byte_at (data st) i.
Proof.
  induction 1 as [st|st st1 st'' Hc Hs Hr IH]; [done|].
  destruct IH as (Hl & Hp & Hf).
  pose proof (step_length _ _ Hs) as Hl'. pose proof (step_pos _ _ Hs) as Hp'.
  simpl in *. split_and!; [lia|lia|].
  intros i Hi. rewrite Hf by done. apply (step_frame _ _ _ Hs). simpl. lia.
Qed.

(** Fuel [> len(data) - pos] never runs out before the loop condition does. *)
Lemma reach_fuel e st st' fuel :
  reach e st st' -> (measure st < fuel)%nat ->
  exists fuel', (measure st' < fuel')%nat /\
    scan_loop fuel e st = scan_loop fuel' e st'.
Proof.
  intros Hr. revert fuel.
  induction Hr as [st|st st1 st'' Hc Hs Hr IH]; intros fuel Hf; [by exists fuel|].
  destruct fuel as [|fuel]; [lia|]. cbn [scan_loop]. rewrite Hc, Hs.
  apply IH. apply loop_cond_true in Hc.
  pose proof (step_length _ _ Hs) as Hl. pose proof (step_pos _ _ Hs) as Hp.
  unfold measure in *. simpl in *. lia.
Qed.

(** A byte the loop changes lies in a patched field of a data record the
    loop reached. *)
Lemma scan_cover fuel e st fin i :
  scan_loop fuel e st = inr fin ->
  byte_at (data fin) i <> byte_at (data st) i ->
  exists st1, reach e st st1 /\ loop_cond e st1 = true /\
    is_definition_header (byte_at (data st1) (pos st1)) = false /\
    exists def, local_definitions st1 !!
                  Z.land (byte_at (data st1) (pos st1)) 0x0F = Some def /\
    exists pre f post, fields def = pre ++ f :: post /\
      identity_field (global_msg_num def) f = true /\
      (S (pos st1) + msg_size pre <= i
       < S (pos st1) + msg_size pre + Z.to_nat (fsize f))%nat.
Proof.
  revert st. induction fuel as [|fuel IH]; intros st H Hne; cbn [scan_loop] in H.
  - injection H as <-. done.
  - destruct (loop_cond e st) eqn:Hc; [|injection H as <-; done].
    destruct (step st) as [err|o] eqn:Hs; [done|].
    destruct (decide (byte_at (data (out_state o)) i = byte_at (data st) i))
      as [Heq|Hne'].
    + destruct o as [st'|st']; simpl in Heq; [|injection H as <-; done].
      rewrite <- Heq in Hne.
      destruct (IH _ H Hne) as (st1 & Hr & Hrest).
      exists st1. split; [|done]. by eapply reach_step.
    + exists st. split; [constructor|]. split; [done|].
      eapply step_cover; eassumption.
Qed.

Lemma scan_found fuel e st fin :
  scan_loop fuel e st = inr fin -> (12 <= pos st)%nat ->
  (file_creator_found st = true -> (18 <= length (data st))%nat) ->
  file_creator_found fin = true -> (18 <= length (data fin))%nat.
Proof.
  revert st. induction fuel as [|fuel IH]; intros st H Hp Hf; cbn [scan_loop] in H.
  - injection H as <-. done.
  - destruct (loop_cond e st); [|injection H as <-; done].
    destruct (step st) as [err|[st'|st']] eqn:Hs; [done| |].
    + pose proof (step_length _ _ Hs) as Hl. pose proof (step_pos _ _ Hs) as Hp'.
      pose proof (step_found _ _ Hs) as Hfd. simpl in *.
      apply (IH _ H); [lia|]. intros Hf'. destruct (Hfd Hf'); [|lia].
      rewrite Hl. auto.
    + injection H as <-. intros Hf'.
      pose proof (step_length _ _ Hs) as Hl. pose proof (step_found _ _ Hs Hf').
      simpl in *. rewrite Hl. destruct H; [auto|lia].
Qed.

(* ================================================================== *)
(** * Header *)

Lemma validate_header_ok d :
  validate_header d = inr tt ->
  (14 <= length d)%nat /\ take 4 (drop 8 d) = fit_signature /\ 12 <= byte_at d 0.
Proof.
  unfold validate_header. intros H.
  destruct (Nat.ltb_spec (length d) 14); [done|].
  destruct (bool_decide_reflect (take 4 (drop 8 d) = fit_signature)); [|done].
  destruct (Z.ltb_spec (byte_at d 0) 12); [done|]. done.
Qed.

Lemma normalize_length d : length (normalize_header d) = length d.
Proof.
  unfold normalize_header.
  destruct (_ =? 16); destruct (_ =? 2134); rewrite ?length_pack_u16, ?length_insert;
    done.
Qed.

Lemma normalize_frame d i :
  (i = 0 \/ 4 <= i)%nat -> byte_at (normalize_header d) i = byte_at d i.
Proof.
  intros Hi. unfold normalize_header.
  assert (H1 : byte_at (if byte_at d 1 =? 16 then d else <[1%nat:=16]> d) i
               = byte_at d i).
  { destruct (_ =? 16); [done|]. apply byte_at_insert_ne. lia. }
  destruct (u16_le _ 2 =? 2134); [done|].
  rewrite byte_at_pack_u16_out by lia. done.
Qed.

Lemma normalize_version d :
  (4 <= length d)%nat ->
  byte_at (normalize_header d) 1 = 16 /\ u16_le (normalize_header d) 2 = 2134.
Proof.
  intros Hl. unfold normalize_header.
  set (d1 := if byte_at d 1 =? 16 then d else <[1%nat:=16]> d).
  assert (H1 : byte_at d1 1 = 16 /\ length d1 = length d).
  { subst d1. destruct (Z.eqb_spec (byte_at d 1) 16); [done|].
    rewrite length_insert. split; [|done]. apply byte_at_insert_eq. lia. }
  destruct H1 as [H1 Hl1].
  destruct (Z.eqb_spec (u16_le d1 2) 2134); [done|].
  rewrite byte_at_pack_u16_out by lia. split; [done|].
  apply u16_le_pack_u16; lia.
Qed.

Lemma header_size_normalize d : header_size (normalize_header d) = header_size d.
Proof. unfold header_size. apply normalize_frame. lia. Qed.

Lemma data_size_normalize d : data_size (normalize_header d) = data_size d.
Proof.
  unfold data_size, u32_le. rewrite !normalize_frame by lia. done.
Qed.

Lemma scan_end_le d : (scan_end d <= length d - 2)%nat.
Proof. unfold scan_end. lia. Qed.

(** Facts on the result of the scan. *)
Lemma scan_fit_inv x fin :
  scan_fit x = inr fin ->
  validate_header x = inr tt /\
  length (data fin) = length x /\
  (forall i, (i < 12)%nat ->
     byte_at (data fin) i = byte_at (normalize_header x) i) /\
  (file_creator_found fin = true -> (18 <= length x)%nat).
Proof.
  unfold scan_fit. intros H.
  destruct (validate_header x) as [e|[]] eqn:Hv; [done|]. cbn [bind] in H.
  destruct (validate_header_ok _ Hv) as (Hl & _ & Hh).
  assert (Hp : (12 <= pos (init_state (normalize_header x)))%nat).
  { simpl. rewrite header_size_normalize. unfold header_size. lia. }
  destruct (scan_loop_frame _ _ _ _ H) as (Hlf & _ & Hf).
  simpl in Hlf. rewrite normalize_length in Hlf.
  split_and!; [done|done| |].
  - intros i Hi. rewrite Hf by lia. done.
  - intros Hfd. rewrite <- Hlf. eapply scan_found; [eassumption|done|done|done].
Qed.

(** The scan reaches every state of a reachable iteration. *)
Lemma scan_fit_at x st :
  validate_header x = inr tt ->
  reach (scan_end (normalize_header x)) (init_state (normalize_header x)) st ->
  loop_cond (scan_end (normalize_header x)) st = true ->
  exists fuel, scan_fit x =
    match step st with
    | inl e => inl e
    | inr (Continue st') => scan_loop fuel (scan_end (normalize_header x)) st'
    | inr (Break st') => inr st'
    end.
Proof.
  intros Hv Hr Hc. unfold scan_fit. rewrite Hv. cbn [bind].
  destruct (reach_fuel _ _ _ (S (length (normalize_header x))) Hr) as (fuel & Hm & ->).
  { unfold measure. simpl. lia. }
  destruct fuel as [|fuel]; [lia|]. exists fuel. cbn [scan_loop]. rewrite Hc. done.
Qed.

(* ================================================================== *)
(** * After the scan *)

Lemma u32_bytes v :
  0 <= v < 4294967296 ->
  v mod 256 + 256 * ((v / 256) mod 256) + 65536 * ((v / 65536) mod 256)
  + 16777216 * ((v / 16777216) mod 256) = v.
Proof.
  intros Hv.
  rewrite (Z.mod_small (v / 16777216) 256)
    by (split; [apply Z.div_pos | apply Z.div_lt_upper_bound]; lia).
  replace (v / 65536) with (v / 256 / 256)
    by (rewrite Z.div_div; [reflexivity | lia | lia]).
  replace (v / 16777216) with (v / 256 / 256 / 256)
    by (rewrite !Z.div_div; [reflexivity | lia | lia | lia | lia]).
  pose proof (Z.div_mod v 256 ltac:(lia)).
  pose proof (Z.div_mod (v / 256) 256 ltac:(lia)).
  pose proof (Z.div_mod (v / 256 / 256) 256 ltac:(lia)).
  lia.
Qed.

Lemma pack_u32_inv d a v d' :
  pack_u32 d a v = inr d' ->
  length d' = length d /\
  (forall i, (i < a \/ a + 4 <= i)%nat -> byte_at d' i = byte_at d i) /\
  ((a + 4 <= length d)%nat -> u32_le d' a = v).
Proof.
  unfold pack_u32. intros H.
  destruct ((0 <=? v) && (v <? 4294967296)) eqn:Hv; [|done].
  injection H as <-. apply andb_true_iff in Hv as [Hv1 Hv2].
  apply Z.leb_le in Hv1. apply Z.ltb_lt in Hv2.
  split_and!.
  - by rewrite !length_insert.
  - intros i Hi. rewrite !byte_at_insert_ne by lia. done.
  - intros Hl. unfold u32_le.
    rewrite (byte_at_insert_ne _ a), (byte_at_insert_ne _ a), (byte_at_insert_ne _ a),
      byte_at_insert_eq by (rewrite ?length_insert; lia).
    rewrite (byte_at_insert_ne _ (a + 1)), (byte_at_insert_ne _ (a + 1)),
      byte_at_insert_eq by (rewrite ?length_insert; lia).
    rewrite (byte_at_insert_ne _ (a + 2)), byte_at_insert_eq
      by (rewrite ?length_insert; lia).
    rewrite byte_at_insert_eq by (rewrite ?length_insert; lia).
    apply u32_bytes. lia.
Qed.

Lemma take_drop_insert_out k n j v (l : bytes) :
  (j < n \/ n + k <= j)%nat -> take k (drop n (<[j := v]> l)) = take k (drop n l).
Proof.
  intros H. destruct (decide (j < n)%nat).
  - rewrite drop_insert_lt by done. done.
  - rewrite drop_insert_ge by lia. rewrite take_insert_ge by lia. done.
Qed.

Lemma length_splice d blk :
  (2 <= length d)%nat -> length (splice_before_crc d blk) = (length d + length blk)%nat.
Proof.
  intros H. unfold splice_before_crc. rewrite !length_app, length_take, length_drop. lia.
Qed.

Lemma splice_prefix d blk i :
  (i < length d - 2)%nat -> byte_at (splice_before_crc d blk) i = byte_at d i.
Proof.
  intros H. unfold splice_before_crc, byte_at. rewrite !nth_lookup.
  rewrite lookup_app_l by (rewrite length_take; lia).
  rewrite lookup_take_lt by lia. done.
Qed.

Lemma splice_block d blk :
  (2 <= length d)%nat ->
  take (length blk) (drop (length d - 2) (splice_before_crc d blk)) = blk.
Proof.
  intros H. unfold splice_before_crc.
  rewrite drop_app_length' by (rewrite length_take; lia).
  apply take_app_length.
Qed.

Lemma write_crc_length d : length (write_crc d) = length d.
Proof. unfold write_crc. case_match; [apply length_pack_u16 | done]. Qed.

Lemma write_crc_frame d i :
  (i < length d - 2)%nat -> byte_at (write_crc d) i = byte_at d i.
Proof.
  intros H. unfold write_crc. case_match; [|done].
  apply byte_at_pack_u16_out. lia.
Qed.

(** The trailer written by [write_crc] is the CRC of everything before it. *)
Lemma write_crc_check d :
  (16 <= length d)%nat ->
  calculate_crc16 (take (length (write_crc d) - 2) (write_crc d))
  = u16_le (write_crc d) (length (write_crc d) - 2).
Proof.
  intros H. rewrite write_crc_length. unfold write_crc.
  destruct (Nat.leb_spec 16 (length d)); [|lia].
  rewrite take_pack_u16 by lia.
  rewrite u16_le_pack_u16 by (lia || apply calculate_crc16_range). done.
Qed.

Lemma finish_frame ds st y i :
  finish ds st = inr y -> (2 <= length (data st))%nat ->
  (i < length (data st) - 2)%nat -> ~ (4 <= i < 8)%nat ->
  byte_at y i = byte_at (data st) i.
Proof.
  unfold finish. intros H Hl Hi Hn.
  destruct (manufacturer_changed st); [|by injection H as <-].
  destruct (file_creator_found st); cbn [negb bind] in H.
  - injection H as <-. apply write_crc_frame. done.
  - destruct (pack_u32 _ _ _) as [e|d'] eqn:Hp; [done|]. injection H as <-.
    destruct (pack_u32_inv _ _ _ _ Hp) as (Hl' & Hf & _).
    rewrite write_crc_frame.
    + rewrite Hf by lia. apply splice_prefix. done.
    + rewrite Hl', length_splice by done. lia.
Qed.

Lemma pack_u32_take_drop d a v d' k n :
  pack_u32 d a v = inr d' -> (a + 4 <= n)%nat ->
  take k (drop n d') = take k (drop n d).
Proof.
  unfold pack_u32. intros H Hn.
  destruct ((0 <=? v) && (v <? 4294967296)); [|done]. injection H as <-.
  rewrite !take_drop_insert_out by lia. done.
Qed.

(* ================================================================== *)
(** * [convert_fit] *)

Lemma convert_fit_ok x y :
  convert_fit x = inr y ->
  exists fin, scan_fit x = inr fin /\ finish (data_size x) fin = inr y.
Proof.
  unfold convert_fit. destruct x as [|b x']; [done|].
  destruct (modify_manufacturer_binary (b :: x') 260) as [e|d] eqn:Hm; [done|].
  intros [= <-]. unfold modify_manufacturer_binary in Hm.
  destruct (scan_fit (b :: x')) as [e|fin]; [done|]. cbn [bind] in Hm. eauto.
Qed.

(** What the output looks like at a record the scan reached. *)
Lemma reached_step_final x y st :
  convert_fit x = inr y ->
  reach (scan_end (normalize_header x)) (init_state (normalize_header x)) st ->
  loop_cond (scan_end (normalize_header x)) st = true ->
  (12 <= pos st)%nat /\ length (data st) = length x /\
  (forall i, (pos st <= i)%nat -> byte_at (data st) i = byte_at x i) /\
  exists o, step st = inr o /\
    forall i, (i < pos (out_state o))%nat -> (8 <= i)%nat -> (i < length x - 2)%nat ->
      byte_at y i = byte_at (data (out_state o)) i.
Proof.
  intros Hc Hr Hl.
  destruct (convert_fit_ok _ _ Hc) as (fin & Hs & Hf).
  destruct (scan_fit_inv _ _ Hs) as (Hv & Hlen & _ & _).
  destruct (validate_header_ok _ Hv) as (H14 & _ & Hh).
  destruct (reach_frame _ _ _ Hr) as (Hls & Hps & Hfs).
  simpl in Hls, Hps. rewrite normalize_length in Hls.
  rewrite header_size_normalize in Hps. unfold header_size in Hps.
  split_and!; [lia|done| |].
  { intros i Hi. rewrite Hfs by done. apply normalize_frame. lia. }
  destruct (scan_fit_at _ _ Hv Hr Hl) as (fuel & Hsf). rewrite Hs in Hsf.
  destruct (step st) as [e|o] eqn:Hst; [done|]. exists o. split; [done|].
  intros i Hi H8 Hix.
  rewrite (finish_frame _ _ _ _ Hf) by lia.
  destruct o as [st''|st'']; simpl in *.
  - destruct (scan_loop_frame _ _ _ _ (eq_sym Hsf)) as (_ & _ & Hfr).
    apply Hfr. lia.
  - by injection Hsf as ->.
Qed.

(* ================================================================== *)
(** * Properties of [convert] *)

(** C6: for every input on which [convert] succeeds, the output's
    protocol_version (byte 1) is 16 and its profile_version (bytes 2-3,
    little-endian u16) is 2134. *)
Theorem convert_normalizes_header x y :
  convert_fit x = inr y -> byte_at y 1 = 16 /\ u16_le y 2 = 2134.
Proof.
  intros Hc.
  destruct (convert_fit_ok _ _ Hc) as (fin & Hs & Hf).
  destruct (scan_fit_inv _ _ Hs) as (Hv & Hlen & Hhd & _).
  destruct (validate_header_ok _ Hv) as (H14 & _ & _).
  destruct (normalize_version x) as [H1 H2]; [lia|].
  assert (Hy : forall i, (i < 4)%nat -> byte_at y i = byte_at (normalize_header x) i).
  { intros i Hi. rewrite (finish_frame _ _ _ _ Hf) by lia. apply Hhd. lia. }
  unfold u16_le in *. rewrite !Hy by lia. done.
Qed.

Lemma convert_normalizes_header_witness :
  byte_at (match convert_fit sample_fit with inr y => y | inl _ => [] end) 1 = 16.
Proof.
  apply (proj1 (convert_normalizes_header sample_fit _ eq_refl)).
Defined.

(** C8: an input shorter than 14 bytes, or without [.FIT] at offset 8, or
    whose header_size (byte 0) is below 12, makes [convert] fail with a
    FitConverterError, so it returns no bytes. *)
Theorem malformed_input_rejected x :
  ((length x < 14)%nat \/ take 4 (drop 8 x) <> fit_signature \/ byte_at x 0 < 12) ->
  exists msg, convert_fit x = inl (FitConverterError msg).
Proof.
  intros Hbad. unfold convert_fit. destruct x as [|b x']; [by eexists|].
  unfold modify_manufacturer_binary, scan_fit.
  destruct (validate_header (b :: x')) as [e|[]] eqn:Hv.
  - by eexists.
  - exfalso. destruct (validate_header_ok _ Hv) as (? & ? & ?).
    destruct Hbad as [?|[?|?]]; [lia|done|lia].
Qed.

Lemma malformed_input_rejected_witness :
  exists msg, convert_fit [12; 16; 0x56; 0x08] = inl (FitConverterError msg).
Proof. apply malformed_input_rejected. left. simpl. lia. Defined.

(** C10: the [new_manufacturer] argument of [_modify_manufacturer_binary]
    does not influence its result. *)
Theorem new_manufacturer_ignored d m1 m2 :
  modify_manufacturer_binary d m1 = modify_manufacturer_binary d m2.
Proof. reflexivity. Qed.


(** C1 (counterexample): on [header_only_fit] [convert] succeeds but the
    trailer is not the CRC-16 of the preceding bytes. *)
Lemma crc_trailer_counterexample :
  exists y, convert_fit header_only_fit = inr y /\
    calculate_crc16 (take (length y - 2) y) <> u16_le y (length y - 2).
Proof. eexists. split; [vm_compute; reflexivity | vm_compute; discriminate]. Qed.

(** C1 (amended): when [convert] succeeds and the scan patched a
    manufacturer field, the CRC-16 of output bytes [[0, len-2)] equals the
    trailer read as a little-endian u16; when no manufacturer field was
    patched, the scanned buffer is returned as is, without recomputing the
    checksum. *)
Theorem crc_trailer_when_patched x y fin :
  convert_fit x = inr y -> scan_fit x = inr fin ->
  (manufacturer_changed fin = true ->
   calculate_crc16 (take (length y - 2) y) = u16_le y (length y - 2)) /\
  (manufacturer_changed fin = false -> y = data fin).
Proof.
  intros Hc Hs.
  destruct (convert_fit_ok _ _ Hc) as (fin' & Hs' & Hf).
  rewrite Hs in Hs'. injection Hs' as <-.
  destruct (scan_fit_inv _ _ Hs) as (Hv & Hlen & _ & H18).
  destruct (validate_header_ok _ Hv) as (H14 & _ & _).
  unfold finish in Hf. split; intros Hm; rewrite Hm in Hf; [|by injection Hf as <-].
  destruct (file_creator_found fin) eqn:Hfd; cbn [negb bind] in Hf.
  - injection Hf as <-. apply write_crc_check. rewrite Hlen. specialize (H18 eq_refl). lia.
  - destruct (pack_u32 _ _ _) as [e|d'] eqn:Hp; [done|]. injection Hf as <-.
    apply write_crc_check.
    destruct (pack_u32_inv _ _ _ _ Hp) as (Hl' & _).
    rewrite Hl', length_splice; simpl; lia.
Qed.

Lemma crc_trailer_when_patched_witness :
  let y := match convert_fit sample_fit with inr y => y | inl _ => [] end in
  calculate_crc16 (take (length y - 2) y) = u16_le y (length y - 2).
Proof.
  apply (proj1 (crc_trailer_when_patched sample_fit _
                  (match scan_fit sample_fit with inr s => s
                   | inl _ => init_state sample_fit end)
                  eq_refl eq_refl)).
  vm_compute. reflexivity.
Defined.

(** Layout of the buffer [finish] returns. *)
Lemma finish_layout ds fin y :
  finish ds fin = inr y -> (14 <= length (data fin))%nat ->
  (manufacturer_changed fin && negb (file_creator_found fin) = true ->
   length y = (length (data fin) + 16)%nat /\
   take 16 (drop (length (data fin) - 2) y) = file_creator_message /\
   u32_le y 4 = ds + 16) /\
  (manufacturer_changed fin && negb (file_creator_found fin) = false ->
   length y = length (data fin)).
Proof.
  intros Hf H14.
  unfold finish in Hf. split; intros Hmf.
  - apply andb_true_iff in Hmf as [Hm Hfd]. apply negb_true_iff in Hfd.
    rewrite Hm, Hfd in Hf. cbn [negb bind] in Hf.
    destruct (pack_u32 _ _ _) as [e|d'] eqn:Hp; [done|]. injection Hf as <-.
    destruct (pack_u32_inv _ _ _ _ Hp) as (Hl' & Hfr & Hu).
    rewrite length_splice in Hl' by lia. simpl in Hl'.
    split_and!.
    + rewrite write_crc_length. lia.
    + unfold write_crc. destruct (Nat.leb_spec 16 (length d')); [|lia].
      unfold pack_u16. rewrite !take_drop_insert_out by lia.
      rewrite (pack_u32_take_drop _ _ _ _ _ _ Hp) by lia.
      apply (splice_block (data fin) file_creator_message). lia.
    + unfold u32_le. rewrite !write_crc_frame by lia. fold (u32_le d' 4).
      rewrite Hu by (rewrite length_splice; simpl; lia). done.
  - destruct (manufacturer_changed fin); [|by injection Hf as <-].
    destruct (file_creator_found fin); [|done]. cbn [negb bind] in Hf.
    injection Hf as <-. rewrite write_crc_length. done.
Qed.

(** C5: when [convert] succeeds, the 16-byte file_creator block is spliced
    right before the 2 trailing bytes, payload_size grows by 16 and the
    output is 16 bytes longer exactly when the scan patched a manufacturer
    field and saw no global message 49 definition; otherwise the output
    has the input's length. *)
Theorem file_creator_spliced x y fin :
  convert_fit x = inr y -> scan_fit x = inr fin ->
  (manufacturer_changed fin && negb (file_creator_found fin) = true ->
   length y = (length x + 16)%nat /\
   take 16 (drop (length x - 2) y) = file_creator_message /\
   u32_le y 4 = data_size x + 16) /\
  (manufacturer_changed fin && negb (file_creator_found fin) = false ->
   length y = length x).
Proof.
  intros Hc Hs.
  destruct (convert_fit_ok _ _ Hc) as (fin' & Hs' & Hf).
  rewrite Hs in Hs'. injection Hs' as <-.
  destruct (scan_fit_inv _ _ Hs) as (Hv & Hlen & _ & _).
  destruct (validate_header_ok _ Hv) as (H14 & _ & _).
  rewrite <- Hlen. apply finish_layout; [done | lia].
Qed.


Lemma file_creator_spliced_witness :
  length (match convert_fit sample_fit with inr y => y | inl _ => [] end)
  = (length sample_fit + 16)%nat.
Proof.
  apply (proj1 (proj1 (file_creator_spliced sample_fit _
                  (match scan_fit sample_fit with inr s => s
                   | inl _ => init_state sample_fit end)
                  eq_refl eq_refl) ltac:(vm_compute; reflexivity))).
Defined.

(** A definition record whose declared fields run past the end of the
    buffer leaves the position within two bytes of the end. *)
Lemma definition_step_trunc st hb p st' :
  (length (data st) < S (p + 4) + 3 * Z.to_nat (byte_at (data st) (p + 4)))%nat ->
  definition_step st hb p = Continue st' ->
  data st' = data st /\ (length (data st) < pos st' + 3)%nat.
Proof.
  intros Ht. unfold definition_step.
  destruct (Nat.leb_spec (length (data st)) (p + 4)); [done|].
  destruct (Nat.leb_spec (length (data st)) (p + 4)); [lia|].
  pose proof (read_fields_trunc (data st) (S (p + 4)) _ Ht) as Hr.
  destruct (read_fields _ _ _) as [fs p'] eqn:E. simpl in Hr.
  intros [= <-]. simpl. done.
Qed.

(** C3: when the scan reaches a definition record whose declared
    field_count needs more bytes than the buffer holds (counting from the
    first field byte [pos + 6]), the scan ends with that record: the state
    it returns is the one right after this record, and no later record is
    processed. *)
Theorem truncated_definition_halts x st :
  validate_header x = inr tt ->
  reach (scan_end (normalize_header x)) (init_state (normalize_header x)) st ->
  loop_cond (scan_end (normalize_header x)) st = true ->
  is_definition_header (byte_at (data st) (pos st)) = true ->
  (length (data st) < pos st + 6 + 3 * Z.to_nat (byte_at (data st) (pos st + 5)))%nat ->
  exists o, step st = inr o /\ scan_fit x = inr (out_state o).
Proof.
  intros Hv Hr Hc Hdef Ht.
  destruct (scan_fit_at _ _ Hv Hr Hc) as (fuel & ->).
  destruct (reach_frame _ _ _ Hr) as (Hls & _ & _). simpl in Hls.
  pose proof (scan_end_le (normalize_header x)) as He.
  unfold step. rewrite Hdef. unfold ok.
  eexists. split; [reflexivity|].
  destruct (definition_step st _ (S (pos st))) as [st'|st'] eqn:Ed; [|done].
  replace (pos st + 5)%nat with (S (pos st) + 4)%nat in Ht by lia.
  destruct (definition_step_trunc st _ (S (pos st)) st' ltac:(lia) Ed) as [Hd Hp].
  destruct fuel as [|fuel]; [done|]. cbn [scan_loop].
  rewrite loop_cond_false; [done|]. lia.
Qed.

(** A file whose only definition record announces five fields but holds
    one. *)
Lemma truncated_definition_halts_witness :
  exists o, step (init_state (normalize_header truncated_def_fit)) = inr o /\
    scan_fit truncated_def_fit = inr (out_state o).
Proof.
  apply truncated_definition_halts.
  - vm_compute. reflexivity.
  - apply reach_refl.
  - vm_compute. reflexivity.
  - vm_compute. reflexivity.
  - vm_compute. lia.
Defined.

(** C4: when the scan reaches a data record bound to a file_id definition
    (global message 0) and the whole record lies before the end of the
    scanned region, the output holds, at the offset of each field (the
    record start plus the sizes of the fields declared before it): type 4
    for field (0, size 1), manufacturer 1 for field (1, size 2) and product
    3122 for field (2, size 2), both as little-endian u16. *)
Theorem file_id_fields_patched x y st def pre f post :
  convert_fit x = inr y ->
  reach (scan_end (normalize_header x)) (init_state (normalize_header x)) st ->
  loop_cond (scan_end (normalize_header x)) st = true ->
  is_definition_header (byte_at (data st) (pos st)) = false ->
  local_definitions st !! Z.land (byte_at (data st) (pos st)) 0x0F = Some def ->
  global_msg_num def = 0 ->
  fields def = pre ++ f :: post ->
  (S (pos st) + msg_size (fields def) <= scan_end (normalize_header x))%nat ->
  (fnum f = 0 /\ fsize f = 1 -> byte_at y (S (pos st) + msg_size pre) = 4) /\
  (fnum f = 1 /\ fsize f = 2 -> u16_le y (S (pos st) + msg_size pre) = 1) /\
  (fnum f = 2 /\ fsize f = 2 -> u16_le y (S (pos st) + msg_size pre) = 3122).
Proof.
  intros Hc Hr Hl Hdef Hdl Hg Hfs Hin.
  destruct (reached_step_final _ _ _ Hc Hr Hl) as (H12 & Hlen & _ & o & Hst & Hy).
  pose proof (scan_end_le (normalize_header x)) as He. rewrite normalize_length in He.
  unfold step in Hst. rewrite Hdef in Hst.
  destruct (data_step_inv _ _ _ Hst) as [[Hn _]|(def' & Hl' & ->)]; [congruence|].
  rewrite Hdl in Hl'. injection Hl' as <-. simpl in Hy.
  unfold patch_record, patch_file_id in Hy. rewrite Hg in Hy. cbn [Z.eqb] in Hy.
  rewrite Hfs in Hy, Hin. rewrite msg_size_app, msg_size_cons in Hy, Hin.
  destruct (patch_loop_field file_id_field file_id_field_length file_id_field_frame
              (data st) (S (pos st)) 0 pre f post (manufacturer_changed st))
    as (dk & mck & Hdk & Hk); [lia|].
  rewrite Nat.add_0_r in Hk.
  set (off := (S (pos st) + msg_size pre)%nat) in *.
  assert (Hyk : forall i, (off <= i < off + Z.to_nat (fsize f))%nat ->
                  byte_at y i = byte_at (file_id_field dk off f mck).1 i).
  { intros i Hi. rewrite Hy by lia. apply Hk. done. }
  assert (Hu : Z.to_nat (fsize f) = 2%nat ->
               u16_le y off = u16_le (file_id_field dk off f mck).1 off).
  { intros H2. unfold u16_le. rewrite !Hyk by lia. done. }
  split_and!; intros [Hn Hs].
  - rewrite Hyk by (rewrite Hs; simpl; lia).
    unfold file_id_field. rewrite Hn, Hs. cbv [Z.eqb Pos.eqb andb fst].
    apply byte_at_insert_eq. rewrite Hs in Hin. simpl in Hin. lia.
  - rewrite Hu by (rewrite Hs; done).
    unfold file_id_field. rewrite Hn, Hs. cbv [Z.eqb Pos.eqb andb fst].
    apply u16_le_pack_u16; [rewrite Hs in Hin; simpl in Hin; lia | lia].
  - rewrite Hu by (rewrite Hs; done).
    unfold file_id_field. rewrite Hn, Hs. cbv [Z.eqb Pos.eqb andb fst].
    apply u16_le_pack_u16; [rewrite Hs in Hin; simpl in Hin; lia | lia].
Qed.

(** On [sample_fit] the manufacturer field of the file_id record sits at
    offset 29 and reads 1 after conversion. *)
Lemma file_id_fields_patched_witness :
  u16_le (match convert_fit sample_fit with inr y => y | inl _ => [] end) 29 = 1.
Proof.
  refine (proj1 (proj2 (file_id_fields_patched sample_fit _
            (state_after (init_state (normalize_header sample_fit)))
            (MsgDef 0 [(0, 1, 0); (1, 2, 132); (2, 2, 132)])
            [(0, 1, 0)] (1, 2, 132) [(2, 2, 132)]
            eq_refl _ _ _ _ _ _ _)) _).
  - apply (reach_step _ _ (state_after (init_state (normalize_header sample_fit)))).
    + vm_compute. reflexivity.
    + vm_compute. reflexivity.
    + apply reach_refl.
  - vm_compute. reflexivity.
  - vm_compute. reflexivity.
  - vm_compute. reflexivity.
  - reflexivity.
  - reflexivity.
  - vm_compute. lia.
  - split; reflexivity.
Defined.

Lemma convert_fit_of_finish x fin y :
  x <> [] -> scan_fit x = inr fin -> finish (data_size x) fin = inr y ->
  convert_fit x = inr y.
Proof.
  intros Hx Hs Hf. unfold convert_fit, modify_manufacturer_binary.
  destruct x as [|b x']; [done|]. rewrite Hs. cbn [bind]. rewrite Hf. done.
Qed.

Lemma finish_error ds st e :
  finish ds st = inl e ->
  e = StructError /\ manufacturer_changed st = true /\
  file_creator_found st = false /\ ~ (0 <= ds + 16 < 2 ^ 32).
Proof.
  unfold finish. destruct (manufacturer_changed st); [|done].
  destruct (file_creator_found st); cbn [negb bind]; [done|].
  unfold pack_u32. change (Z.of_nat (length file_creator_message)) with 16.
  destruct ((0 <=? ds + 16) && (ds + 16 <? 4294967296)) eqn:Hb; [done|].
  intros [= <-]. split_and!; [done|done|done|].
  intros Hr. apply andb_false_iff in Hb as [Hb|Hb];
    [apply Z.leb_gt in Hb | apply Z.ltb_ge in Hb]; lia.
Qed.


Lemma finish_ok ds fin :
  0 <= ds < 2 ^ 32 - 16 -> exists y, finish ds fin = inr y.
Proof.
  intros Hds. unfold finish.
  destruct (manufacturer_changed fin); [|by eexists].
  destruct (file_creator_found fin); cbn [negb bind]; [by eexists|].
  unfold pack_u32. change (Z.of_nat (length file_creator_message)) with 16.
  rewrite (proj2 (Z.leb_le 0 (ds + 16)) ltac:(lia)),
    (proj2 (Z.ltb_lt (ds + 16) 4294967296) ltac:(lia)).
  eexists. reflexivity.
Qed.

(** C7 (counterexample): [payload_overflow_fit] passes header validation
    and its scan reaches a data record of an unbound local message type,
    yet [convert] fails: adding 16 to payload_size [0xFFFFFFFF] overflows
    the u32 field. *)
Lemma unbound_local_type_counterexample :
  let x := payload_overflow_fit in
  let st := state_after (state_after (init_state (normalize_header x))) in
  validate_header x = inr tt /\
  reach (scan_end (normalize_header x)) (init_state (normalize_header x)) st /\
  loop_cond (scan_end (normalize_header x)) st = true /\
  is_definition_header (byte_at (data st) (pos st)) = false /\
  local_definitions st !! Z.land (byte_at (data st) (pos st)) 0x0F = None /\
  exists msg, convert_fit x = inl (FitConverterError msg).
Proof.
  intros x st. split_and!.
  - vm_compute. reflexivity.
  - apply (reach_step _ _ (state_after (init_state (normalize_header x)))).
    + vm_compute. reflexivity.
    + vm_compute. reflexivity.
    + apply (reach_step _ _ st); [vm_compute; reflexivity | vm_compute; reflexivity |].
      apply reach_refl.
  - vm_compute. reflexivity.
  - vm_compute. reflexivity.
  - vm_compute. reflexivity.
  - eexists. vm_compute. reflexivity.
Qed.

(** C7 (amended): when the scan reaches a data record whose local message
    type has no stored definition, the scan stops there without error,
    returning the state with every patch made so far. [convert] then
    succeeds whenever payload_size + 16 fits in a u32, and its output
    agrees with that state on every byte before the two trailing ones,
    except payload_size (bytes 4-7). When no manufacturer field was
    patched before the halt, [convert] returns that buffer as it is; and
    [convert] fails exactly when a manufacturer field was patched, no
    global message 49 definition was seen and payload_size + 16 does not
    fit in a u32. *)
Theorem unbound_local_type_halts x st :
  validate_header x = inr tt ->
  reach (scan_end (normalize_header x)) (init_state (normalize_header x)) st ->
  loop_cond (scan_end (normalize_header x)) st = true ->
  is_definition_header (byte_at (data st) (pos st)) = false ->
  local_definitions st !! Z.land (byte_at (data st) (pos st)) 0x0F = None ->
  scan_fit x = inr (set_pos st (S (pos st))) /\
  (0 <= data_size x < 2 ^ 32 - 16 ->
   exists y, convert_fit x = inr y /\
     forall i, (i < length x - 2)%nat -> ~ (4 <= i < 8)%nat ->
       byte_at y i = byte_at (data st) i) /\
  (manufacturer_changed st = false -> convert_fit x = inr (data st)) /\
  ((exists e, convert_fit x = inl e) <->
   manufacturer_changed st = true /\ file_creator_found st = false /\
   ~ (0 <= data_size x + 16 < 2 ^ 32)).
Proof.
  intros Hv Hr Hc Hdef Hn.
  destruct (validate_header_ok _ Hv) as (H14 & _ & _).
  destruct (reach_frame _ _ _ Hr) as (Hls & _ & _). simpl in Hls.
  rewrite normalize_length in Hls.
  assert (Hs : scan_fit x = inr (set_pos st (S (pos st)))).
  { destruct (scan_fit_at _ _ Hv Hr Hc) as (fuel & ->).
    unfold step. cbv zeta. rewrite Hdef. unfold data_step. rewrite Hn. done. }
  assert (Hx : x <> []) by (intros Hx; rewrite Hx in H14; simpl in H14; lia).
  split_and!; [done| | |].
  - intros Hds.
    destruct (finish_ok _ (set_pos st (S (pos st))) Hds) as (y & Hf).
    exists y. split.
    + apply (convert_fit_of_finish _ _ _ Hx Hs Hf).
    + intros i Hi Hn48. rewrite (finish_frame _ _ _ _ Hf); simpl; [done|lia|lia|done].
  - intros Hmc. apply (convert_fit_of_finish _ _ _ Hx Hs).
    unfold finish. simpl. rewrite Hmc. done.
  - split.
    + intros (e & He). unfold convert_fit in He.
      destruct x as [|b x']; [done|].
      destruct (modify_manufacturer_binary (b :: x') 260) as [e'|y] eqn:Hm; [|done].
      unfold modify_manufacturer_binary in Hm. rewrite Hs in Hm. cbn [bind] in Hm.
      apply finish_error in Hm as (_ & Hm1 & Hm2 & Hm3). simpl in Hm1, Hm2. done.
    + intros (Hmc & Hfc & Hov). unfold convert_fit.
      destruct x as [|b x']; [done|].
      unfold modify_manufacturer_binary. rewrite Hs. cbn [bind].
      unfold finish. simpl. rewrite Hmc, Hfc. cbn [negb bind].
      unfold pack_u32. change (Z.of_nat 16) with 16.
      destruct ((0 <=? data_size (b :: x') + 16) && (data_size (b :: x') + 16 <? 4294967296))
        eqn:Hb.
      * apply andb_true_iff in Hb as [Hb1 Hb2].
        apply Z.leb_le in Hb1. apply Z.ltb_lt in Hb2. exfalso. apply Hov. simpl. lia.
      * by eexists.
Qed.

Lemma unbound_local_type_halts_witness :
  scan_fit unbound_type_fit
  = inr (set_pos (state_after (state_after (init_state (normalize_header unbound_type_fit))))
           (S (pos (state_after (state_after (init_state (normalize_header unbound_type_fit))))))).
Proof.
  apply (unbound_local_type_halts unbound_type_fit
           (state_after (state_after (init_state (normalize_header unbound_type_fit))))).
  - vm_compute. reflexivity.
  - apply (reach_step _ _ (state_after (init_state (normalize_header unbound_type_fit)))).
    + vm_compute. reflexivity.
    + vm_compute. reflexivity.
    + apply (reach_step _ _ (state_after (state_after
               (init_state (normalize_header unbound_type_fit)))));
        [vm_compute; reflexivity | vm_compute; reflexivity |].
      apply reach_refl.
  - vm_compute. reflexivity.
  - vm_compute. reflexivity.
  - vm_compute. reflexivity.
Defined.

(** C2 (code bug): [convert] is not idempotent. On [unbound_type_fit] the
    scan stops at the unbound record header before reaching the
    file_creator block it appended, so a second conversion appends a
    second block. *)
Theorem convert_not_idempotent :
  exists y z, convert_fit unbound_type_fit = inr y /\ convert_fit y = inr z /\
    length z = (length y + 16)%nat /\ z <> y.
Proof.
  eexists. eexists. split; [vm_compute; reflexivity|].
  split; [vm_compute; reflexivity|].
  split; [vm_compute; reflexivity|].
  intros H. apply (f_equal (@length Z)) in H. vm_compute in H. lia.
Qed.

(** C9: when [convert] succeeds,
    (1) a byte before the two trailing ones that differs between input and
        output is in the header (bytes 1-7) or in a patched field of a data
        record the scan reached;
    (2) within any record the scan reached, a changed byte lies in a
        patched field of that record, so definition records and the header
        byte of data records are unchanged;
    (3) a field the patchers do not rewrite (such as file_id field 4,
        time_created, or any field of a record of another global message)
        keeps its input bytes;
    (4) past the first [len - 2] bytes the output holds either the two
        trailing bytes or the 16-byte file_creator block followed by them. *)
Theorem convert_frame x y :
  convert_fit x = inr y ->
  (forall i, (i < length x - 2)%nat -> ~ (1 <= i < 8)%nat ->
     byte_at y i <> byte_at x i ->
     exists st,
       reach (scan_end (normalize_header x)) (init_state (normalize_header x)) st /\
       loop_cond (scan_end (normalize_header x)) st = true /\ patched_at st i) /\
  (forall st o i,
     reach (scan_end (normalize_header x)) (init_state (normalize_header x)) st ->
     loop_cond (scan_end (normalize_header x)) st = true -> step st = inr o ->
     (pos st <= i < pos (out_state o))%nat -> (i < length x - 2)%nat ->
     byte_at y i <> byte_at x i -> patched_at st i) /\
  (forall st def pre f post i,
     reach (scan_end (normalize_header x)) (init_state (normalize_header x)) st ->
     loop_cond (scan_end (normalize_header x)) st = true ->
     is_definition_header (byte_at (data st) (pos st)) = false ->
     local_definitions st !! Z.land (byte_at (data st) (pos st)) 0x0F = Some def ->
     fields def = pre ++ f :: post -> identity_field (global_msg_num def) f = false ->
     (S (pos st) + msg_size pre <= i < S (pos st) + msg_size pre + Z.to_nat (fsize f))%nat ->
     (i < length x - 2)%nat ->
     byte_at y i = byte_at x i) /\
  (length y = length x \/
   (length y = (length x + 16)%nat /\
    take 16 (drop (length x - 2) y) = file_creator_message)).
Proof.
  intros Hc.
  destruct (convert_fit_ok _ _ Hc) as (fin & Hs & Hf).
  destruct (scan_fit_inv _ _ Hs) as (Hv & Hlen & _ & _).
  destruct (validate_header_ok _ Hv) as (H14 & _ & _).
  split_and!.
  - intros i Hi Hn Hne.
    rewrite (finish_frame _ _ _ _ Hf) in Hne by lia.
    unfold scan_fit in Hs. rewrite Hv in Hs. cbn [bind] in Hs.
    destruct (decide (byte_at (data fin) i
                      = byte_at (data (init_state (normalize_header x))) i)) as [E|E].
    + exfalso. apply Hne. rewrite E. simpl. apply normalize_frame. lia.
    + destruct (scan_cover _ _ _ _ _ Hs E) as (st1 & Hr & Hl & Hp).
      exists st1. split_and!; [done|done|]. exact Hp.
  - intros st o i Hr Hl Hst Hi Hix Hne.
    destruct (reached_step_final _ _ _ Hc Hr Hl) as (H12 & _ & Hfx & o' & Hst' & Hy).
    rewrite Hst in Hst'. injection Hst' as <-.
    rewrite Hy in Hne by lia. rewrite <- Hfx in Hne by lia.
    apply (step_cover _ _ _ Hst Hne).
  - intros st def pre f post i Hr Hl Hdef Hdl Hfs Hid Hi Hix.
    destruct (reached_step_final _ _ _ Hc Hr Hl) as (H12 & _ & Hfx & o & Hst & Hy).
    unfold step in Hst. rewrite Hdef in Hst.
    destruct (data_step_inv _ _ _ Hst) as [[Hn _]|(def' & Hl' & ->)]; [congruence|].
    rewrite Hdl in Hl'. injection Hl' as <-. simpl in Hy. rewrite Hfs in Hy.
    rewrite Hy by (rewrite ?msg_size_app, ?msg_size_cons; lia).
    rewrite patch_record_unmatched by done. apply Hfx. lia.
  - rewrite <- Hlen.
    destruct (finish_layout _ _ _ Hf ltac:(lia)) as [Hyes Hno].
    destruct (manufacturer_changed fin && negb (file_creator_found fin)).
    + right. destruct (Hyes eq_refl) as (? & ? & _). done.
    + left. by apply Hno.
Qed.

Lemma convert_frame_witness :
  let y := match convert_fit sample_fit with inr y => y | inl _ => [] end in
  length y = length sample_fit \/
  (length y = (length sample_fit + 16)%nat /\
   take 16 (drop (length sample_fit - 2) y) = file_creator_message).
Proof. exact (proj2 (proj2 (proj2 (convert_frame sample_fit _ eq_refl)))). Defined.

(* ================================================================== *)
(** * Further properties of the code *)

(** ** [calculate_crc16] *)

(** X1: [calculate_crc16] always returns a 16-bit value, whatever the
    input, so writing it with [struct.pack_into('<H')] cannot fail. *)
Theorem calculate_crc16_u16 d : 0 <= calculate_crc16 d <= 0xFFFF.
Proof. pose proof (calculate_crc16_range d). lia. Qed.

Lemma crc_residue_table :
  forallb (fun hi => forallb (fun lo =>
      let c := 256 * Z.of_nat hi + Z.of_nat lo in
      crc_byte (crc_byte c (c mod 256)) (c / 256) =? 0)
    (seq 0 256)) (seq 0 256) = true.
Proof. vm_compute. reflexivity. Qed.

Lemma crc_residue_byte c :
  0 <= c < 65536 -> crc_byte (crc_byte c (c mod 256)) (c / 256) = 0.
Proof.
  intros Hc.
  pose proof crc_residue_table as T. rewrite forallb_forall in T.
  assert (Hhi : In (Z.to_nat (c / 256)) (seq 0 256)).
  { apply in_seq. split; [lia|]. apply Nat2Z.inj_lt. rewrite Z2Nat.id by (apply Z.div_pos; lia).
    apply Z.div_lt_upper_bound; lia. }
  specialize (T _ Hhi). rewrite forallb_forall in T.
  assert (Hlo : In (Z.to_nat (c mod 256)) (seq 0 256)).
  { apply in_seq. pose proof (Z.mod_pos_bound c 256 ltac:(lia)). lia. }
  specialize (T _ Hlo). cbv beta zeta in T.
  rewrite Z2Nat.id in T by (apply Z.div_pos; lia).
  rewrite Z2Nat.id in T by (apply Z.mod_pos_bound; lia).
  rewrite <- Z.div_mod in T by lia. by apply Z.eqb_eq in T.
Qed.

Lemma crc_append_residue d :
  let c := calculate_crc16 d in
  calculate_crc16 (d ++ [c mod 256; c / 256]) = 0.
Proof.
  intros c. unfold calculate_crc16 at 1. rewrite fold_left_app. simpl.
  apply crc_residue_byte. apply calculate_crc16_range.
Qed.

(** X2: appending the CRC of [d] to [d] as a little-endian u16 gives a
    buffer whose CRC is 0 (the check a FIT reader performs over a whole
    file). *)
Theorem calculate_crc16_residue d :
  let c := calculate_crc16 d in
  calculate_crc16 (d ++ [c mod 256; c / 256]) = 0.
Proof. apply crc_append_residue. Qed.

Lemma split_last2 (l : bytes) :
  (2 <= length l)%nat ->
  l = take (length l - 2) l ++ [byte_at l (length l - 2); byte_at l (length l - 1)].
Proof.
  intros Hl. rewrite <- (take_drop (length l - 2) l) at 1. f_equal.
  assert (Hd : length (drop (length l - 2) l) = 2%nat) by (rewrite length_drop; lia).
  destruct (drop (length l - 2) l) as [|a [|b [|c r]]] eqn:E; simpl in Hd; try lia.
  assert (Ha : l !! (length l - 2)%nat = Some a).
  { rewrite <- (Nat.add_0_r (length l - 2)), <- lookup_drop, E. done. }
  assert (Hb : l !! (length l - 1)%nat = Some b).
  { replace (length l - 1)%nat with (length l - 2 + 1)%nat by lia.
    rewrite <- lookup_drop, E. done. }
  unfold byte_at. rewrite (nth_lookup_Some _ _ _ _ Ha), (nth_lookup_Some _ _ _ _ Hb).
  done.
Qed.

(** X3: when the scan patched a manufacturer field, the file [convert]
    returns passes the whole-file check: the CRC of all its bytes,
    trailer included, is 0. *)
Theorem convert_whole_file_crc x y fin :
  convert_fit x = inr y -> scan_fit x = inr fin ->
  manufacturer_changed fin = true -> calculate_crc16 y = 0.
Proof.
  intros Hc Hs Hm.
  destruct (convert_fit_ok _ _ Hc) as (fin' & Hs' & Hf).
  rewrite Hs in Hs'. injection Hs' as <-.
  destruct (scan_fit_inv _ _ Hs) as (Hv & Hlen & _ & H18).
  destruct (validate_header_ok _ Hv) as (H14 & _ & _).
  unfold finish in Hf. rewrite Hm in Hf.
  assert (Hw : exists d', y = write_crc d' /\ (16 <= length d')%nat).
  { destruct (file_creator_found fin) eqn:Hfd; cbn [negb bind] in Hf.
    - injection Hf as <-. exists (data fin). split; [done|]. specialize (H18 eq_refl). lia.
    - destruct (pack_u32 _ _ _) as [e|d'] eqn:Hp; [done|]. injection Hf as <-.
      exists d'. split; [done|].
      destruct (pack_u32_inv _ _ _ _ Hp) as (Hl' & _).
      rewrite Hl', length_splice; simpl; lia. }
  destruct Hw as (d' & -> & H16).
  unfold write_crc. destruct (Nat.leb_spec 16 (length d')); [|lia].
  pose proof (calculate_crc16_range (take (length d' - 2) d')) as Hr.
  set (C := calculate_crc16 (take (length d' - 2) d')) in *.
  rewrite (split_last2 (pack_u16 d' (length d' - 2) C)) by (rewrite length_pack_u16; lia).
  rewrite length_pack_u16, take_pack_u16 by lia.
  replace (length d' - 1)%nat with (length d' - 2 + 1)%nat by lia.
  rewrite byte_at_pack_u16_lo, byte_at_pack_u16_hi by lia.
  rewrite (Z.mod_small (C / 256) 256)
    by (split; [apply Z.div_pos | apply Z.div_lt_upper_bound]; lia).
  apply crc_append_residue.
Qed.

Lemma take4_drop8 (l : bytes) :
  (12 <= length l)%nat ->
  take 4 (drop 8 l) = [byte_at l 8; byte_at l 9; byte_at l 10; byte_at l 11].
Proof.
  intros H. do 12 (destruct l as [|? l]; [simpl in H; lia|]). reflexivity.
Qed.

(** X4: every buffer [convert] returns passes its header validation again:
    it is at least 14 bytes long, and its header_size (byte 0) and [.FIT]
    signature (bytes 8-11) are those of the input. *)
Theorem convert_output_revalidates x y :
  convert_fit x = inr y ->
  validate_header y = inr tt /\ byte_at y 0 = byte_at x 0 /\
  take 4 (drop 8 y) = take 4 (drop 8 x).
Proof.
  intros Hc.
  destruct (convert_fit_ok _ _ Hc) as (fin & Hs & Hf).
  destruct (scan_fit_inv _ _ Hs) as (Hv & Hlen & Hhd & _).
  destruct (validate_header_ok _ Hv) as (H14 & Hsig & H12).
  assert (Hly : (length x <= length y)%nat).
  { destruct (finish_layout _ _ _ Hf ltac:(lia)) as [Hyes Hno].
    destruct (manufacturer_changed fin && negb (file_creator_found fin)).
    - destruct (Hyes eq_refl) as (? & _). lia.
    - rewrite Hno by done. lia. }
  assert (Hb : forall i, (i = 0 \/ 8 <= i < 12)%nat -> byte_at y i = byte_at x i).
  { intros i Hi. rewrite (finish_frame _ _ _ _ Hf) by lia.
    rewrite Hhd by lia. apply normalize_frame. lia. }
  assert (Hs' : take 4 (drop 8 y) = take 4 (drop 8 x)).
  { rewrite !take4_drop8 by lia. rewrite !Hb by lia. done. }
  split_and!; [|apply Hb; lia|done].
  unfold validate_header.
  destruct (Nat.ltb_spec (length y) 14); [lia|].
  destruct (bool_decide_reflect (take 4 (drop 8 y) = fit_signature)) as [_|Hn];
    [|by rewrite Hs' in Hn].
  rewrite Hb by lia. destruct (Z.ltb_spec (byte_at x 0) 12); [lia|]. done.
Qed.

(** X5: [convert_fit] reports the first header check that fails, in the
    order of the code: empty input, length below 14, missing [.FIT]
    signature, header_size below 12. *)
Theorem convert_header_errors x :
  (x = [] -> convert_fit x = inl (FitConverterError "fit_data cannot be empty")) /\
  ((0 < length x < 14)%nat ->
   convert_fit x = inl (FitConverterError
     ("Failed to convert FIT file: " ++ "Invalid FIT file: too short"))) /\
  ((14 <= length x)%nat -> take 4 (drop 8 x) <> fit_signature ->
   convert_fit x = inl (FitConverterError
     ("Failed to convert FIT file: " ++ "Invalid FIT file: missing .FIT signature"))) /\
  ((14 <= length x)%nat -> take 4 (drop 8 x) = fit_signature -> byte_at x 0 < 12 ->
   convert_fit x = inl (FitConverterError
     ("Failed to convert FIT file: " ++ "Invalid FIT file: header too short"))).
Proof.
  split_and!.
  - intros ->. reflexivity.
  - intros Hl. destruct x as [|b x']; [simpl in Hl; lia|].
    unfold convert_fit, modify_manufacturer_binary, scan_fit, validate_header.
    destruct (Nat.ltb_spec (length (b :: x')) 14); [done|lia].
  - intros Hl Hs. destruct x as [|b x']; [simpl in Hl; lia|].
    unfold convert_fit, modify_manufacturer_binary, scan_fit, validate_header.
    destruct (Nat.ltb_spec (length (b :: x')) 14); [lia|].
    destruct (bool_decide_reflect (take 4 (drop 8 (b :: x')) = fit_signature)); done.
  - intros Hl Hs H0. destruct x as [|b x']; [simpl in Hl; lia|].
    unfold convert_fit, modify_manufacturer_binary, scan_fit, validate_header.
    destruct (Nat.ltb_spec (length (b :: x')) 14); [lia|].
    destruct (bool_decide_reflect (take 4 (drop 8 (b :: x')) = fit_signature)); [|done].
    destruct (Z.ltb_spec (byte_at (b :: x') 0) 12); [done|lia].
Qed.

(** The body of the loop fails only in the hex dump of a file_id record. *)
Lemma step_error st e :
  step st = inl e ->
  e = IndexError /\
  is_definition_header (byte_at (data st) (pos st)) = false /\
  exists def, local_definitions st !! Z.land (byte_at (data st) (pos st)) 0x0F = Some def /\
    global_msg_num def = 0 /\
    (length (data st) < S (pos st) + Nat.min (msg_size (fields def)) 16)%nat.
Proof.
  unfold step. cbv zeta.
  destruct (is_definition_header _) eqn:Hd; [done|]. unfold data_step.
  destruct (local_definitions st !! _) as [def|] eqn:Hl; [|done].
  destruct (Z.eqb_spec (global_msg_num def) 0) as [E0|E0].
  - nat_guard Hg.
    + intros [= <-]. split_and!; [done|done|]. eexists. split_and!; [done|done|done].
    + destruct (patch_file_id _ _ _ _ _). done.
  - destruct (Z.eqb_spec (global_msg_num def) 23).
    + destruct (patch_device_info _ _ _ _ _). done.
    + done.
Qed.

Lemma scan_loop_error fuel e st err :
  scan_loop fuel e st = inl err ->
  exists st1, reach e st st1 /\ loop_cond e st1 = true /\ step st1 = inl err.
Proof.
  revert st. induction fuel as [|fuel IH]; intros st H; cbn [scan_loop] in H; [done|].
  destruct (loop_cond e st) eqn:Hc; [|done].
  destruct (step st) as [err'|[st'|st']] eqn:Hs.
  - injection H as ->. exists st. split_and!; [constructor|done|done].
  - destruct (IH _ H) as (st1 & Hr & ?). exists st1. split; [|done].
    by eapply reach_step.
  - done.
Qed.


(** X6: [_modify_manufacturer_binary] raises [IndexError] exactly when the
    header is valid and the scan reaches a data record bound to a file_id
    definition with fewer than [min(message_size, 16)] bytes after its
    header byte: the hex dump of the record reads past the buffer, although
    the field loop itself would stop at the end. *)
Theorem modify_index_error x m :
  modify_manufacturer_binary x m = inl IndexError <->
  validate_header x = inr tt /\
  exists st,
    reach (scan_end (normalize_header x)) (init_state (normalize_header x)) st /\
    loop_cond (scan_end (normalize_header x)) st = true /\
    is_definition_header (byte_at (data st) (pos st)) = false /\
    exists def, local_definitions st !! Z.land (byte_at (data st) (pos st)) 0x0F = Some def /\
      global_msg_num def = 0 /\
      (length (data st) < S (pos st) + Nat.min (msg_size (fields def)) 16)%nat.
Proof.
  split.
  - unfold modify_manufacturer_binary.
    destruct (scan_fit x) as [e|fin] eqn:Hs; cbn [bind].
    + intros [= ->]. unfold scan_fit in Hs.
      destruct (validate_header x) as [e|[]] eqn:Hv; cbn [bind] in Hs;
        [injection Hs as ->; unfold validate_header in Hv; by repeat case_match|].
      split; [done|].
      destruct (scan_loop_error _ _ _ _ Hs) as (st & Hr & Hc & He).
      exists st. destruct (step_error _ _ He) as (_ & Hd & Hex). split_and!; done.
    + intros Hf. by destruct (finish_error _ _ _ Hf).
  - intros (Hv & st & Hr & Hc & Hd & def & Hl & Hg & Hlen).
    destruct (scan_fit_at _ _ Hv Hr Hc) as (fuel & Hs).
    assert (He : step st = inl IndexError).
    { unfold step. cbv zeta. rewrite Hd. unfold data_step. rewrite Hl, Hg.
      cbn [Z.eqb]. nat_guard Hg'; [done|lia]. }
    unfold modify_manufacturer_binary. rewrite Hs, He. done.
Qed.

(** X7: [_modify_manufacturer_binary] raises [struct.error] exactly when
    the scan succeeds, patched a manufacturer field and saw no global
    message 49 definition, and payload_size + 16 does not fit in a u32. *)
Theorem modify_struct_error x m :
  modify_manufacturer_binary x m = inl StructError <->
  exists fin, scan_fit x = inr fin /\ manufacturer_changed fin = true /\
    file_creator_found fin = false /\ ~ (0 <= data_size x + 16 < 2 ^ 32).
Proof.
  unfold modify_manufacturer_binary. split.
  - destruct (scan_fit x) as [e|fin] eqn:Hs; cbn [bind].
    + intros [= ->]. unfold scan_fit in Hs.
      destruct (validate_header x) as [e|[]] eqn:Hv; cbn [bind] in Hs.
      * injection Hs as ->. unfold validate_header in Hv.
        repeat case_match; done.
      * destruct (scan_loop_error _ _ _ _ Hs) as (st & _ & _ & He).
        by destruct (step_error _ _ He).
    + intros Hf. destruct (finish_error _ _ _ Hf) as (_ & ? & ? & ?). by exists fin.
  - intros (fin & Hs & Hm & Hfd & Hr). rewrite Hs. cbn [bind].
    unfold finish. rewrite Hm, Hfd. cbn [negb bind].
    unfold pack_u32. change (Z.of_nat (length file_creator_message)) with 16.
    destruct ((0 <=? data_size x + 16) && (data_size x + 16 <? 4294967296)) eqn:Hb;
      [|done].
    exfalso. apply Hr. apply andb_true_iff in Hb as [H1 H2].
    apply Z.leb_le in H1. apply Z.ltb_lt in H2. lia.
Qed.

(** X8: the field loop of a definition record keeps
    [min(num_fields, (len(data) - p) / 3)] fields, the ones whose three
    bytes all lie in the buffer; field [k] is
    [(data[p+3k], data[p+3k+1], data[p+3k+2])] and the position ends
    [3] bytes past the last field kept. *)
Theorem read_fields_layout d p n :
  length (read_fields d p n).1 = Nat.min n ((length d - p) / 3) /\
  (read_fields d p n).2 = (p + 3 * length (read_fields d p n).1)%nat /\
  forall k, (k < length (read_fields d p n).1)%nat ->
    (read_fields d p n).1 !! k
    = Some (byte_at d (p + 3 * k), byte_at d (p + 3 * k + 1), byte_at d (p + 3 * k + 2)).
Proof.
  revert p. induction n as [|n IH]; intros p; cbn [read_fields].
  - cbn [fst snd length]. split_and!; [done|lia|]. intros k Hk. cbn in Hk. lia.
  - nat_guard Hg; cbn [fst snd].
    + rewrite Nat.div_small by lia. cbn [length].
      split_and!; [done|lia|]. intros k Hk. cbn in Hk. lia.
    + specialize (IH (p + 3)%nat).
      destruct (read_fields d (p + 3) n) as [fs p'] eqn:E. cbn [fst snd length] in *.
      destruct IH as (Hl & Hp & Hf).
      replace (length d - p)%nat with (length d - (p + 3) + 1 * 3)%nat by lia.
      rewrite Nat.div_add by lia.
      split_and!; [lia|lia|].
      intros [|k] Hk.
      * rewrite Nat.mul_0_r, !Nat.add_0_r. done.
      * replace (p + 3 * S k)%nat with (p + 3 + 3 * k)%nat by lia.
        change ((_ :: fs) !! S k) with (fs !! k). apply Hf. cbn [length] in Hk. lia.
Qed.

Lemma window_byte d p blk k :
  take (length blk) (drop p d) = blk -> (k < length blk)%nat ->
  byte_at d (p + k) = nth k blk 0.
Proof.
  intros H Hk. unfold byte_at. rewrite !nth_lookup.
  rewrite <- lookup_drop, <- H, lookup_take_lt by done. done.
Qed.

(** Offset of a position term [e] built from [p] with [S] and [+ n]. *)
Ltac offset_of e p :=
  lazymatch e with
  | p => constr:(0%nat)
  | S ?e' => let k := offset_of e' p in constr:(S k)
  | (?e' + ?n)%nat => let k := offset_of e' p in constr:((k + n)%nat)
  end.

(** Rewrite every byte read at an offset of [p] with the byte [B] gives. *)
Ltac block_bytes d p B :=
  repeat match goal with
  | |- context [byte_at d ?e] =>
      let k := offset_of e p in rewrite (B e k) by lia
  end.

(** X9: the block [_create_file_creator_message] builds is read by the
    scan as two records: a definition binding local type 7 to global
    message 49 with fields [(0, 2, 0x84)] and [(1, 1, 0x02)], which sets
    [file_creator_found], then its 3-byte data record, which is skipped;
    the buffer is left as it is and the position moves 16 bytes on. *)
Theorem file_creator_block_scanned st :
  (pos st + 16 <= length (data st))%nat ->
  take 16 (drop (pos st) (data st)) = file_creator_message ->
  let defs := <[7 := MsgDef 49 [(0, 2, 132); (1, 1, 2)]]> (local_definitions st) in
  step st = inr (Continue (ScanState (data st) (pos st + 12) defs
                             (manufacturer_changed st) true)) /\
  step (ScanState (data st) (pos st + 12) defs (manufacturer_changed st) true)
  = inr (Continue (ScanState (data st) (pos st + 16) defs
                     (manufacturer_changed st) true)).
Proof.
  intros Hl Hw defs.
  destruct st as [d p ldefs mc fc]. simpl in *.
  assert (B : forall e k, e = (p + k)%nat -> (k < 16)%nat ->
                byte_at d e = nth k file_creator_message 0).
  { intros e k -> Hk. apply window_byte; done. }
  split.
  - unfold step, definition_step, u16_le. simpl (data _). simpl (pos _).
    block_bytes d p B. cbn -[read_fields].
    destruct (Nat.leb_spec (length d) (S (p + 4))); [lia|].
    change (is_definition_header 71) with true. change (Z.to_nat 2) with 2%nat.
    cbn [read_fields]. nat_guard G1; [lia|]. cbn [read_fields]. nat_guard G2; [lia|].
    block_bytes d p B. cbn.
    replace (S (S (p + 4 + 3 + 3))) with (p + 12)%nat by lia. destruct fc; reflexivity.
  - unfold step. simpl (data _). simpl (pos _).
    block_bytes d p B. cbn -[msg_size].
    unfold data_step. change (Z.land 7 15) with 7. unfold defs. simplify_map_eq. simpl.
    unfold set_pos. simpl. do 3 f_equal. lia.
Qed.

(** X10: the [while] loop of the scan runs at most [len(data) - pos]
    iterations: every iteration moves [pos] forward, so any fuel above
    that bound gives the same result. *)
Theorem scan_loop_fuel_enough fuel fuel' e st :
  (measure st < fuel)%nat -> (measure st < fuel')%nat ->
  scan_loop fuel e st = scan_loop fuel' e st.
Proof.
  revert fuel' st. induction fuel as [|fuel IH]; intros fuel' st H H'; [lia|].
  destruct fuel' as [|fuel']; [lia|]. cbn [scan_loop].
  destruct (loop_cond e st) eqn:Hc; [|done].
  destruct (step st) as [err|[st'|st']] eqn:Hs; [done| |done].
  apply loop_cond_true in Hc.
  pose proof (step_length _ _ Hs) as Hl. pose proof (step_pos _ _ Hs) as Hp.
  simpl in Hl, Hp. apply IH; unfold measure in *; lia.
Qed.

Lemma read_fields_ext d d' q n :
  length d' = length d -> (forall i, (q <= i)%nat -> byte_at d' i = byte_at d i) ->
  read_fields d' q n = read_fields d q n.
Proof.
  intros Hl Hb. revert q Hb. induction n as [|n IH]; intros q Hb; [done|].
  cbn [read_fields]. rewrite Hl.
  destruct (length d <? q + 3)%nat; [done|].
  rewrite IH by (intros i Hi; apply Hb; lia).
  rewrite !Hb by lia. done.
Qed.

(** X11: the reserved byte and the architecture byte of a definition
    record (the two bytes after its header) are never used: whatever they
    hold, the record stores the same definition, read little-endian, and
    the scan continues at the same position. *)
Theorem definition_ignores_architecture st hb p r a :
  let st' := set_data st (<[p := r]> (<[S p := a]> (data st))) in
  local_definitions (out_state (definition_step st' hb p))
  = local_definitions (out_state (definition_step st hb p)) /\
  pos (out_state (definition_step st' hb p)) = pos (out_state (definition_step st hb p)) /\
  file_creator_found (out_state (definition_step st' hb p))
  = file_creator_found (out_state (definition_step st hb p)).
Proof.
  intros st'. unfold st', definition_step, set_data, u16_le. cbn [data].
  rewrite !length_insert.
  assert (Hb : forall i, (S (S p) <= i)%nat ->
            byte_at (<[p := r]> (<[S p := a]> (data st))) i = byte_at (data st) i).
  { intros i Hi. rewrite !byte_at_insert_ne by lia. done. }
  destruct (length (data st) <=? p + 4)%nat; [done|].
  rewrite !Hb by lia.
  rewrite (read_fields_ext (data st)) by (rewrite ?length_insert; done || (intros; apply Hb; lia)).
  destruct (read_fields (data st) _ _). done.
Qed.

Section PatchMc.
Variable pf : bytes -> nat -> field -> bool -> bytes * bool.
Variable mf : field -> bool.
Hypothesis pf_length : forall d a f mc, length (pf d a f mc).1 = length d.
Hypothesis pf_mc : forall d a f mc, (pf d a f mc).2 = mc || mf f.

(** The flag returned by the field loop is set iff it was set on entry or
    the loop reached a marked field that fits in the buffer. *)
Lemma patch_loop_mc d p fo fs mc :
  (patch_loop pf d p fo fs mc).2 = true <->
  mc = true \/ exists pre f post, fs = pre ++ f :: post /\ mf f = true /\
    (p + fo + msg_size pre + Z.to_nat (fsize f) <= length d)%nat.
Proof.
  revert d fo mc. induction fs as [|f fs IH]; intros d fo mc; cbn [patch_loop].
  - split; [by left|]. intros [H|(pre & f & post & Hf & _)]; [done|].
    by destruct pre.
  - nat_guard Hg.
    + split; [by left|]. intros [H|(pre & f' & post & Hf & Hm & Hfit)]; [done|].
      destruct pre as [|f0 pre]; injection Hf as -> ->;
        rewrite ?msg_size_cons in Hfit; simpl in Hfit; lia.
    + destruct (pf d (p + fo) f mc) as [d' mc'] eqn:E.
      assert (Hl : length d' = length d)
        by (change d' with (d', mc').1; rewrite <- E; auto).
      assert (Hm : mc' = mc || mf f)
        by (change mc' with (d', mc').2; rewrite <- E; auto).
      rewrite IH, Hl, Hm. split.
      * intros [H|(pre & f' & post & -> & Hmf & Hfit)].
        -- apply orb_true_iff in H as [H|H]; [by left|right].
           exists [], f, fs. simpl. split_and!; [done|done|lia].
        -- right. exists (f :: pre), f', post.
           rewrite msg_size_cons. split_and!; [done|done|lia].
      * intros [H|(pre & f' & post & Hf & Hmf & Hfit)];
          [left; by rewrite H|].
        destruct pre as [|f0 pre]; injection Hf as -> ->.
        -- left. rewrite Hmf. apply orb_true_r.
        -- right. exists pre, f', post. rewrite msg_size_cons in Hfit.
           split_and!; [done|done|lia].
Qed.
End PatchMc.

Lemma file_id_field_mc d a f mc :
  (file_id_field d a f mc).2 = mc || manufacturer_field 0 f.
Proof.
  unfold file_id_field, manufacturer_field. simpl.
  destruct (Z.eqb_spec (fnum f) 0); destruct (Z.eqb_spec (fnum f) 1);
    destruct (Z.eqb_spec (fnum f) 2); destruct (Z.eqb_spec (fsize f) 1);
    destruct (Z.eqb_spec (fsize f) 2); simpl; try lia;
    rewrite ?orb_true_r, ?orb_false_r; done.
Qed.

Lemma device_info_field_mc d a f mc :
  (device_info_field d a f mc).2 = mc || manufacturer_field 23 f.
Proof.
  unfold device_info_field, manufacturer_field. simpl.
  destruct (Z.eqb_spec (fnum f) 2); destruct (Z.eqb_spec (fnum f) 4);
    destruct (Z.eqb_spec (fsize f) 2); simpl; try lia;
    rewrite ?orb_true_r, ?orb_false_r; done.
Qed.

Lemma definition_step_mc st hb p :
  manufacturer_changed (out_state (definition_step st hb p)) = manufacturer_changed st.
Proof. unfold definition_step. repeat case_match; done. Qed.

(** One iteration sets the flag iff it was set or the record at [pos]
    writes a manufacturer field. *)
Lemma step_mc st o :
  step st = inr o ->
  (manufacturer_changed (out_state o) = true <->
   manufacturer_changed st = true \/ writes_manufacturer st).
Proof.
  unfold step, writes_manufacturer. intros Hs.
  destruct (is_definition_header _) eqn:Hd.
  - injection Hs as <-. rewrite definition_step_mc.
    split; [by left|]. intros [H|[H _]]; [done|congruence].
  - unfold data_step in Hs.
    destruct (local_definitions st !! _) as [def|] eqn:Hdef.
    2:{ injection Hs as <-. simpl. split; [by left|].
        intros [H|(_ & def & H & _)]; [done|congruence]. }
    destruct (Z.eqb_spec (global_msg_num def) 0) as [Hg0|Hg0].
    + nat_guard Hlen; [done|].
      destruct (patch_file_id _ _ _ _ _) as [d' mc'] eqn:E.
      injection Hs as <-. simpl.
      change mc' with (d', mc').2. rewrite <- E. unfold patch_file_id.
      rewrite (patch_loop_mc _ (manufacturer_field 0)
                 file_id_field_length file_id_field_mc).
      split.
      * intros [H|(pre & f & post & Hf & Hm & Hfit)]; [by left|right].
        split; [done|]. exists def. split; [done|]. rewrite Hg0.
        exists pre, f, post. split_and!; [done|done|lia].
      * intros [H|(_ & def0 & Heq & pre & f & post & Hf & Hm & Hfit)]; [by left|right].
        injection Heq as <-. rewrite Hg0 in Hm.
        exists pre, f, post. split_and!; [done|done|lia].
    + destruct (Z.eqb_spec (global_msg_num def) 23) as [Hg23|Hg23].
      * destruct (patch_device_info _ _ _ _ _) as [d' mc'] eqn:E.
        injection Hs as <-. simpl.
        change mc' with (d', mc').2. rewrite <- E. unfold patch_device_info.
        rewrite (patch_loop_mc _ (manufacturer_field 23)
                   device_info_field_length device_info_field_mc).
        split.
        -- intros [H|(pre & f & post & Hf & Hm & Hfit)]; [by left|right].
           split; [done|]. exists def. split; [done|]. rewrite Hg23.
           exists pre, f, post. split_and!; [done|done|lia].
        -- intros [H|(_ & def0 & Heq & pre & f & post & Hf & Hm & Hfit)]; [by left|right].
           injection Heq as <-. rewrite Hg23 in Hm.
           exists pre, f, post. split_and!; [done|done|lia].
      * injection Hs as <-. simpl. split; [by left|].
        intros [H|(_ & def0 & Heq & pre & f & post & Hf & Hm & Hfit)]; [done|].
        injection Heq as <-. unfold manufacturer_field in Hm.
        apply Z.eqb_neq in Hg0, Hg23. rewrite Hg0, Hg23 in Hm. done.
Qed.

Lemma scan_loop_mc fuel e st fin :
  scan_loop fuel e st = inr fin -> (measure st < fuel)%nat ->
  (manufacturer_changed fin = true <->
   manufacturer_changed st = true \/
   exists st1, reach e st st1 /\ loop_cond e st1 = true /\ writes_manufacturer st1).
Proof.
  revert st. induction fuel as [|fuel IH]; intros st H Hf; [lia|].
  cbn [scan_loop] in H.
  destruct (loop_cond e st) eqn:Hc.
  2:{ injection H as <-. split; [by left|].
      intros [H|(st1 & Hr & Hc1 & _)]; [done|].
      inversion Hr; subst; congruence. }
  destruct (step st) as [err|[st'|st']] eqn:Hs; [done| |].
  - pose proof (step_mc _ _ Hs) as Hm. simpl in Hm.
    rewrite (IH _ H).
    2:{ apply loop_cond_true in Hc.
        pose proof (step_length _ _ Hs) as Hl. pose proof (step_pos _ _ Hs) as Hp.
        unfold measure in *. simpl in *. lia. }
    rewrite Hm. split.
    + intros [[H1|H1]|(st1 & Hr & Hc1 & Hw)]; [by left|right|right].
      * exists st. split_and!; [constructor|done|done].
      * exists st1. split_and!; [by eapply reach_step|done|done].
    + intros [H1|(st1 & Hr & Hc1 & Hw)]; [by left; left|].
      inversion Hr as [|? st'' ? Hc' Hs' Hr']; subst.
      * left. by right.
      * rewrite Hs in Hs'. injection Hs' as <-. right. by exists st1.
  - injection H as <-. pose proof (step_mc _ _ Hs) as Hm. simpl in Hm.
    rewrite Hm. split.
    + intros [H1|H1]; [by left|right]. exists st. split_and!; [constructor|done|done].
    + intros [H1|(st1 & Hr & Hc1 & Hw)]; [by left|].
      inversion Hr as [|? st'' ? Hc' Hs' Hr']; subst; [by right|congruence].
Qed.

(** X12: after a successful scan, [manufacturer_changed] is true exactly
    when the loop reached a data record bound to [file_id] or
    [device_info] whose manufacturer field (file_id field 1, device_info
    field 2, of size 2) lies wholly inside the buffer. *)
Theorem manufacturer_changed_iff x fin :
  scan_fit x = inr fin ->
  (manufacturer_changed fin = true <->
   exists st, reach (scan_end (normalize_header x)) (init_state (normalize_header x)) st /\
     loop_cond (scan_end (normalize_header x)) st = true /\ writes_manufacturer st).
Proof.
  unfold scan_fit. intros H.
  destruct (validate_header x) as [err|[]]; [done|]. cbn [bind] in H.
  rewrite (scan_loop_mc _ _ _ _ H) by (unfold measure; simpl; lia).
  simpl. split; [intros [H1|H1]; done|by right].
Qed.

(* ------------------------------------------------------------------ *)
(** ** The properties above at the sample input *)

Lemma convert_whole_file_crc_witness : calculate_crc16 sample_out = 0.
Proof.
  apply (convert_whole_file_crc sample_fit sample_out
           (match scan_fit sample_fit with inr s => s | inl _ => init_state sample_fit end));
    vm_compute; reflexivity.
Defined.

Lemma convert_output_revalidates_witness :
  validate_header sample_out = inr tt /\ byte_at sample_out 0 = byte_at sample_fit 0 /\
  take 4 (drop 8 sample_out) = take 4 (drop 8 sample_fit).
Proof.
  apply (convert_output_revalidates sample_fit sample_out). vm_compute. reflexivity.
Defined.

Lemma file_creator_block_scanned_witness :
  let st := sample_rescan_state in
  let defs := <[7 := MsgDef 49 [(0, 2, 132); (1, 1, 2)]]> (local_definitions st) in
  step st = inr (Continue (ScanState (data st) (pos st + 12) defs
                             (manufacturer_changed st) true)) /\
  step (ScanState (data st) (pos st + 12) defs (manufacturer_changed st) true)
  = inr (Continue (ScanState (data st) (pos st + 16) defs
                     (manufacturer_changed st) true)).
Proof.
  apply (file_creator_block_scanned sample_rescan_state).
  - apply Nat.leb_le. vm_compute. reflexivity.
  - vm_compute. reflexivity.
Defined.

Lemma scan_loop_fuel_enough_witness :
  scan_loop 24 (scan_end sample_fit) (init_state sample_fit)
  = scan_loop 1000 (scan_end sample_fit) (init_state sample_fit).
Proof.
  apply (scan_loop_fuel_enough 24 1000 (scan_end sample_fit) (init_state sample_fit));
    apply Nat.ltb_lt; vm_compute; reflexivity.
Defined.

Lemma manufacturer_changed_iff_witness :
  let fin := match scan_fit sample_fit with inr s => s | inl _ => init_state sample_fit end in
  manufacturer_changed fin = true <->
  exists st, reach (scan_end (normalize_header sample_fit))
               (init_state (normalize_header sample_fit)) st /\
    loop_cond (scan_end (normalize_header sample_fit)) st = true /\ writes_manufacturer st.
Proof.
  apply (manufacturer_changed_iff sample_fit). vm_compute. reflexivity.
Defined.

(* ------------------------------------------------------------------ *)
(** ** Linearity of the CRC update *)

Ltac bitwise :=
  apply Z.bits_inj'; intros ? _; repeat first [rewrite Z.lxor_spec | rewrite Z.land_spec];
  repeat match goal with |- context [Z.testbit ?a ?k] => destruct (Z.testbit a k) end;
  reflexivity.

Lemma land_lxor_distr a b c :
  Z.land (Z.lxor a b) c = Z.lxor (Z.land a c) (Z.land b c).
Proof. bitwise. Qed.

Lemma crc_entry_table :
  forallb (fun i => forallb (fun j =>
      crc_entry (Z.lxor (Z.of_nat i) (Z.of_nat j))
      =? Z.lxor (crc_entry (Z.of_nat i)) (crc_entry (Z.of_nat j)))
    (seq 0 16)) (seq 0 16) = true.
Proof. vm_compute. reflexivity. Qed.

Lemma land15_range u : 0 <= Z.land u 15 < 16.
Proof.
  change 15 with (Z.ones 4). rewrite Z.land_ones by lia.
  pose proof (Z.mod_pos_bound u (2 ^ 4) ltac:(lia)). simpl in *. lia.
Qed.

Lemma crc_entry_lxor u v :
  crc_entry (Z.land (Z.lxor u v) 15)
  = Z.lxor (crc_entry (Z.land u 15)) (crc_entry (Z.land v 15)).
Proof.
  rewrite land_lxor_distr.
  pose proof (land15_range u) as Hu. pose proof (land15_range v) as Hv.
  pose proof crc_entry_table as T. rewrite forallb_forall in T.
  assert (Hi : In (Z.to_nat (Z.land u 15)) (seq 0 16)) by (apply in_seq; lia).
  specialize (T _ Hi). rewrite forallb_forall in T.
  assert (Hj : In (Z.to_nat (Z.land v 15)) (seq 0 16)) by (apply in_seq; lia).
  specialize (T _ Hj). rewrite !Z2Nat.id in T by lia. by apply Z.eqb_eq in T.
Qed.

Lemma crc_nibble_lxor c1 c2 n1 n2 :
  crc_nibble (Z.lxor c1 c2) (Z.lxor n1 n2)
  = Z.lxor (crc_nibble c1 n1) (crc_nibble c2 n2).
Proof.
  unfold crc_nibble. rewrite Z.shiftr_lxor, land_lxor_distr, !crc_entry_lxor.
  bitwise.
Qed.

Lemma crc_byte_lxor c1 c2 b1 b2 :
  crc_byte (Z.lxor c1 c2) (Z.lxor b1 b2) = Z.lxor (crc_byte c1 b1) (crc_byte c2 b2).
Proof. unfold crc_byte. rewrite Z.shiftr_lxor, !crc_nibble_lxor. done. Qed.

Lemma crc_byte_split c b : crc_byte c b = Z.lxor (crc_byte c 0) (crc_byte 0 b).
Proof. rewrite <- crc_byte_lxor, Z.lxor_0_r, Z.lxor_0_l. done. Qed.

Lemma lxor_cancel_r a b c : Z.lxor a c = Z.lxor b c -> a = b.
Proof.
  intros H. apply (f_equal (fun z => Z.lxor z c)) in H.
  rewrite !Z.lxor_assoc, Z.lxor_nilpotent, !Z.lxor_0_r in H. done.
Qed.

Lemma lxor_cancel_l a b c : Z.lxor c a = Z.lxor c b -> a = b.
Proof. rewrite !(Z.lxor_comm c). apply lxor_cancel_r. Qed.

Lemma crc_kernel_table :
  forallb (fun hi => forallb (fun lo =>
      let c := 256 * Z.of_nat hi + Z.of_nat lo in
      (c =? 0) || negb (crc_byte c 0 =? 0))
    (seq 0 256)) (seq 0 256) = true.
Proof. vm_compute. reflexivity. Qed.

(** On 16-bit states, a zero byte maps only 0 to 0. *)
Lemma crc_kernel c : 0 <= c < 65536 -> crc_byte c 0 = 0 -> c = 0.
Proof.
  intros Hc H0.
  pose proof crc_kernel_table as T. rewrite forallb_forall in T.
  assert (Hhi : In (Z.to_nat (c / 256)) (seq 0 256)).
  { apply in_seq. split; [lia|]. apply Nat2Z.inj_lt. rewrite Z2Nat.id by (apply Z.div_pos; lia).
    apply Z.div_lt_upper_bound; lia. }
  specialize (T _ Hhi). rewrite forallb_forall in T.
  assert (Hlo : In (Z.to_nat (c mod 256)) (seq 0 256)).
  { apply in_seq. pose proof (Z.mod_pos_bound c 256 ltac:(lia)). lia. }
  specialize (T _ Hlo). cbv beta zeta in T.
  rewrite Z2Nat.id in T by (apply Z.div_pos; lia).
  rewrite Z2Nat.id in T by (apply Z.mod_pos_bound; lia).
  rewrite <- Z.div_mod in T by lia. rewrite H0 in T.
  apply orb_true_iff in T as [T|T]; [by apply Z.eqb_eq|done].
Qed.

Lemma crc_byte_state_inj c1 c2 b :
  0 <= c1 < 65536 -> 0 <= c2 < 65536 -> crc_byte c1 b = crc_byte c2 b -> c1 = c2.
Proof.
  intros H1 H2 H. rewrite (crc_byte_split c1), (crc_byte_split c2) in H.
  apply lxor_cancel_r in H.
  assert (Hk : crc_byte (Z.lxor c1 c2) 0 = 0).
  { rewrite <- (Z.lxor_nilpotent 0) at 1. rewrite crc_byte_lxor, H.
    apply Z.lxor_nilpotent. }
  apply crc_kernel in Hk; [|by apply lxor_range16].
  by apply Z.lxor_eq_0_iff.
Qed.

Lemma crc_fold_inj l c1 c2 :
  0 <= c1 < 65536 -> 0 <= c2 < 65536 ->
  fold_left crc_byte l c1 = fold_left crc_byte l c2 -> c1 = c2.
Proof.
  revert c1 c2. induction l as [|b l IH]; intros c1 c2 H1 H2 H; simpl in H; [done|].
  apply IH in H; [|apply crc_nibble_range|apply crc_nibble_range].
  by apply crc_byte_state_inj in H.
Qed.

Lemma crc_byte0_table :
  forallb (fun x => forallb (fun y =>
      (x =? y)%nat || negb (crc_byte 0 (Z.of_nat x) =? crc_byte 0 (Z.of_nat y)))
    (seq 0 256)) (seq 0 256) = true.
Proof. vm_compute. reflexivity. Qed.

Lemma crc_byte_value_inj c x y :
  0 <= x < 256 -> 0 <= y < 256 -> crc_byte c x = crc_byte c y -> x = y.
Proof.
  intros Hx Hy H. rewrite (crc_byte_split c x), (crc_byte_split c y) in H.
  apply lxor_cancel_l in H.
  pose proof crc_byte0_table as T. rewrite forallb_forall in T.
  assert (Hi : In (Z.to_nat x) (seq 0 256)) by (apply in_seq; lia).
  specialize (T _ Hi). rewrite forallb_forall in T.
  assert (Hj : In (Z.to_nat y) (seq 0 256)) by (apply in_seq; lia).
  specialize (T _ Hj). rewrite !Z2Nat.id in T by lia. rewrite H, Z.eqb_refl in T.
  apply orb_true_iff in T as [T|T]; [apply Nat.eqb_eq in T; lia|done].
Qed.

(** X13: [calculate_crc16] detects every change of a single byte: two
    buffers that differ in exactly one byte value (both in [0, 256)) have
    different CRCs, wherever the byte sits. *)
Theorem calculate_crc16_single_byte a b x y :
  0 <= x < 256 -> 0 <= y < 256 -> x <> y ->
  calculate_crc16 (a ++ x :: b) <> calculate_crc16 (a ++ y :: b).
Proof.
  intros Hx Hy Hne H. unfold calculate_crc16 in H. rewrite !fold_left_app in H.
  simpl in H. apply crc_fold_inj in H; [|apply crc_nibble_range|apply crc_nibble_range].
  apply Hne. eapply crc_byte_value_inj; eassumption.
Qed.

Lemma calculate_crc16_single_byte_witness :
  calculate_crc16 (sample_fit ++ 0 :: []) <> calculate_crc16 (sample_fit ++ 1 :: []).
Proof. apply calculate_crc16_single_byte; lia. Defined.
